(** * ChatApp: the streaming response engine, the session store and the
      conversation controller of [src/app/(tabs)/index.tsx]

    The screen component keeps its state in React hooks and talks to three
    collaborators: [XMLHttpRequest], [AsyncStorage] and the clock
    ([Date.now]).  The embedding keeps the handlers as they are written and
    makes the collaborators explicit:

    - a JavaScript string is its sequence of UTF-16 code units;
    - [Date.now()] is an argument of the handler that reads it;
    - the events an [XMLHttpRequest] delivers are a list the handlers are
      run over;
    - [JSON.stringify] / [JSON.parse] of the session list on its way to and
      from storage are taken as a faithful encoding: what is written or
      read is the list of sessions itself.

    Each handler is run against the committed React state, as when every
    user event is followed by a render. *)

From Stdlib Require Import String Ascii DecimalString DecimalZ.
From Stdlib Require Import List ZArith NArith Lia Bool.
Import ListNotations.

Set Implicit Arguments.

(** ** JavaScript strings and the built-ins the handlers call *)

Module JS.

Local Open Scope N_scope.

(** A UTF-16 code unit, and a string as the list of its code units. *)
Definition char16 := N.
Definition jsstring := list char16.

(** A source literal made of ASCII characters. *)
Definition lit (s : string) : jsstring :=
  map N_of_ascii (list_ascii_of_string s).

Definition DQ : char16 := 34.    (* the double quote *)
Definition BSL : char16 := 92.   (* the backslash *)
Definition COLON : char16 := 58.

(** [a === b] on strings. *)
Definition streq (a b : jsstring) : bool :=
  if list_eq_dec N.eq_dec a b then true else false.

(** [!v] for [v] a string, [null] or [undefined]: the empty string is
    falsy too. *)
Definition falsy (v : option jsstring) : bool :=
  match v with
  | None | Some [] => true
  | Some (_ :: _) => false
  end.

(** WhiteSpace and LineTerminator of ECMAScript: the class [\s] of a
    regular expression and the code units [String.prototype.trim]
    strips. *)
Definition isWhiteSpace (c : char16) : bool :=
  (9 <=? c) && (c <=? 13)
  || (c =? 32) || (c =? 160) || (c =? 5760)
  || (8192 <=? c) && (c <=? 8202)
  || (c =? 8232) || (c =? 8233) || (c =? 8239) || (c =? 8287)
  || (c =? 12288) || (c =? 65279).

Fixpoint trimStart (s : jsstring) : jsstring :=
  match s with
  | c :: tl => if isWhiteSpace c then trimStart tl else s
  | [] => []
  end.

Definition trimEnd (s : jsstring) : jsstring := rev (trimStart (rev s)).

Definition trim (s : jsstring) : jsstring := trimEnd (trimStart s).

(** [s.substring(start)] for [0 <= start]: past the end it is empty. *)
Definition substring (s : jsstring) (start : nat) : jsstring :=
  skipn start s.

(** [a.slice(0, n)] and [a.slice(-n)] on arrays, and [a.slice(0, -1)]. *)
Definition slice_to {A} (n : nat) (a : list A) : list A := firstn n a.

Definition slice_last {A} (n : nat) (a : list A) : list A :=
  skipn (length a - n) a.

Definition slice_init {A} (a : list A) : list A :=
  firstn (length a - 1) a.

(** [a[a.length - 1]]: [undefined] on the empty array. *)
Definition last_elem {A} (a : list A) : option A :=
  nth_error a (length a - 1).

(** [n.toString()] for an integer-valued Number below 1e21 in absolute
    value: the decimal digits, with a leading minus sign when negative. *)
Definition Number_toString (z : Z) : jsstring :=
  lit (NilEmpty.string_of_int (Z.to_int z)).

(** *** [JSON.parse] of a text that is one string literal

    The engine calls [JSON.parse] only on a text it has wrapped in double
    quotes; on such a text the parse either yields the decoded string or
    throws ([None]).  A text that does not start with a quote is outside
    of what the engine passes and is not given a value here. *)

Definition hexval (c : char16) : option N :=
  if (48 <=? c) && (c <=? 57) then Some (c - 48)
  else if (65 <=? c) && (c <=? 70) then Some (c - 55)
  else if (97 <=? c) && (c <=? 102) then Some (c - 87)
  else None.

Definition hex4 (a b c d : char16) : option char16 :=
  match hexval a, hexval b, hexval c, hexval d with
  | Some x, Some y, Some z, Some w => Some (((x * 16 + y) * 16 + z) * 16 + w)
  | _, _, _, _ => None
  end.

(** The single-character escapes of JSON. *)
Definition unescape1 (e : char16) : option char16 :=
  if e =? 34 then Some 34          (* escaped quote *)
  else if e =? 92 then Some 92     (* escaped backslash *)
  else if e =? 47 then Some 47     (* escaped solidus *)
  else if e =? 98 then Some 8      (* b: backspace *)
  else if e =? 102 then Some 12    (* f: form feed *)
  else if e =? 110 then Some 10    (* n: line feed *)
  else if e =? 114 then Some 13    (* r: carriage return *)
  else if e =? 116 then Some 9     (* t: tab *)
  else None.

(** JSON whitespace, allowed after the value. *)
Definition isJSONSpace (c : char16) : bool :=
  (c =? 32) || (c =? 9) || (c =? 10) || (c =? 13).

(** The characters of a string literal after its opening quote: the
    decoded value and what follows the closing quote. *)
Fixpoint json_string_chars (s : jsstring) : option (jsstring * jsstring) :=
  match s with
  | [] => None
  | c :: tl =>
    if c =? DQ then Some ([], tl)
    else if c =? BSL then
      match tl with
      | [] => None
      | e :: tl1 =>
        if e =? 117 (* u *) then
          match tl1 with
          | h1 :: h2 :: h3 :: h4 :: tl2 =>
            match hex4 h1 h2 h3 h4 with
            | Some u =>
              match json_string_chars tl2 with
              | Some (v, r) => Some (u :: v, r)
              | None => None
              end
            | None => None
            end
          | _ => None
          end
        else
          match unescape1 e with
          | Some u =>
            match json_string_chars tl1 with
            | Some (v, r) => Some (u :: v, r)
            | None => None
            end
          | None => None
          end
      end
    else if c <? 32 then None
    else
      match json_string_chars tl with
      | Some (v, r) => Some (c :: v, r)
      | None => None
      end
  end.

Fixpoint skipJSONSpace (s : jsstring) : jsstring :=
  match s with
  | c :: tl => if isJSONSpace c then skipJSONSpace tl else s
  | [] => []
  end.

Definition JSON_parse (text : jsstring) : option jsstring :=
  match skipJSONSpace text with
  | c :: tl =>
    if c =? DQ then
      match json_string_chars tl with
      | Some (v, r) => if forallb isJSONSpace r then Some v else None
      | None => None
      end
    else None
  | [] => None
  end.

End JS.

Import JS.

(** ** The data model *)

(** [interface Message].  Its [id] field is [msg_id] here, the field name
    [id] being taken by [ChatSession]. *)
Record Message := mkMessage {
  msg_id : jsstring;
  text : jsstring;
  isFromUser : bool
}.

(** [interface ChatSession]. *)
Record ChatSession := mkChatSession {
  id : jsstring;
  messages : list Message
}.

Inductive Role := user | model.

(** [interface GeminiContent]; an element [{ text }] of [parts] is its
    text. *)
Record GeminiContent := mkGeminiContent {
  role : Role;
  parts : list jsstring
}.

(** Configuration. *)
Definition MAX_HISTORY_LENGTH : nat := 100.
Definition CONTEXT_WINDOW_SIZE : nat := 10.

(** ** The streaming response engine: [streamGeminiResponse] *)

Module Engine.

Local Open Scope N_scope.

(** *** The regular expression of [xhr.onprogress]

    The pattern is the literal [text] in double quotes, [\s*], a colon,
    [\s*], a double quote, the captured group, a double quote.  The
    captured group is a greedy star over two alternatives, tried in this
    order: a backslash followed by a double quote, or one code unit that
    is not a double quote.  The matchers below take what is left of the
    subject and give what the rest of the pattern yields; they try the
    alternatives in the order of a backtracking matcher. *)

(** The group and the closing quote; the result is the captured text and
    the subject after the match. *)
Fixpoint group_then_quote (s : jsstring) : option (jsstring * jsstring) :=
  match s with
  | [] => None
  | c :: tl =>
    match
      (if c =? BSL then
         match tl with
         | d :: tl2 =>
           if d =? DQ then
             match group_then_quote tl2 with
             | Some (g, r) => Some (c :: d :: g, r)
             | None => None
             end
           else None
         | [] => None
         end
       else None)
    with
    | Some m => Some m
    | None =>
      match
        (if negb (c =? DQ) then
           match group_then_quote tl with
           | Some (g, r) => Some (c :: g, r)
           | None => None
           end
         else None)
      with
      | Some m => Some m
      | None => if c =? DQ then Some ([], tl) else None
      end
    end
  end.

Section Matchers.
Variable A : Type.
Variable k : jsstring -> option A.

(** [\s*] then [k]: the longest run of white space first. *)
Fixpoint ws_star (s : jsstring) : option A :=
  match s with
  | c :: tl =>
    if isWhiteSpace c then
      match ws_star tl with
      | Some m => Some m
      | None => k s
      end
    else k s
  | [] => k []
  end.

(** One given code unit then [k]. *)
Definition expect (c : char16) (s : jsstring) : option A :=
  match s with
  | d :: tl => if d =? c then k tl else None
  | [] => None
  end.

(** A literal then [k]. *)
Fixpoint expect_lit (l s : jsstring) : option A :=
  match l with
  | [] => k s
  | c :: l' =>
    match s with
    | d :: tl => if d =? c then expect_lit l' tl else None
    | [] => None
    end
  end.
End Matchers.

(** The whole pattern, anchored at the head of [s]. *)
Definition match_at (s : jsstring) : option (jsstring * jsstring) :=
  expect_lit
    (ws_star (expect (ws_star (expect group_then_quote DQ)) COLON))
    (DQ :: lit "text" ++ [DQ]) s.

(** The leftmost position of [s] at which the pattern matches. *)
Fixpoint search (s : jsstring) : option (jsstring * jsstring) :=
  match match_at s with
  | Some m => Some m
  | None =>
    match s with
    | [] => None
    | _ :: tl => search tl
    end
  end.

(** [regex.exec(str)] for the global regex whose [lastIndex] is given:
    [match[1]] (or [null]) and the new [lastIndex]. *)
Definition exec (lastIndex : nat) (str : jsstring)
  : option jsstring * nat :=
  if (length str <? lastIndex)%nat then (None, 0%nat)
  else
    match search (skipn lastIndex str) with
    | Some (g, rest) => (Some g, (length str - length rest)%nat)
    | None => (None, 0%nat)
    end.

(** The state of the promise the engine returns. *)
Inductive settled :=
| Pending
| Resolved
| Rejected (reason : jsstring).

Definition resolve (p : settled) : settled :=
  match p with Pending => Resolved | _ => p end.

Definition reject (reason : jsstring) (p : settled) : settled :=
  match p with Pending => Rejected reason | _ => p end.

(** What [xhr.open], [xhr.setRequestHeader] and [xhr.send] put on the
    wire; [JSON.stringify({ contents: history })] is its [contents]. *)
Record Request := mkRequest {
  method : jsstring;
  url : jsstring;
  headers : list (jsstring * jsstring);
  contents : list GeminiContent
}.

(** What the transport reports to the handlers of an [XMLHttpRequest];
    each event carries the fields of [xhr] its handler reads. *)
Inductive xhr_event :=
| progress (responseText : jsstring)
| error (status : Z)
| loadend (status : Z).

Section Callback.
(** The caller's [onChunk], as a transformer of the caller's state. *)
Variable St : Type.
Variable onChunk : jsstring -> St -> St.

(** The engine's view of one call: the caller's state, the promise,
    the requests sent and the local [lastResponseLength]. *)
Record exchange := mkExchange {
  client : St;
  promise : settled;
  sent : list Request;
  lastResponseLength : nat
}.

(** The body of the [while] loop: decode [match[1]], fall back to the
    raw text when [JSON.parse] throws. *)
Definition emit (m1 : jsstring) (st : St) : St :=
  match JSON_parse (DQ :: m1 ++ [DQ]) with
  | Some decodedText => onChunk decodedText st
  | None => onChunk m1 st
  end.

(** [while ((match = regex.exec(newText)) !== null) ...]; [fuel]
    bounds the number of iterations. *)
Fixpoint scan_loop (fuel lastIndex : nat) (newText : jsstring) (st : St)
  : St :=
  match fuel with
  | O => st
  | S fuel' =>
    match exec lastIndex newText with
    | (Some m1, lastIndex') =>
      scan_loop fuel' lastIndex' newText (emit m1 st)
    | (None, _) => st
    end
  end.

(** A fresh regex starts at [lastIndex = 0]; a match is never empty,
    so the loop runs at most [length newText] times. *)
Definition scan (newText : jsstring) (st : St) : St :=
  scan_loop (S (length newText)) 0 newText st.

Definition onprogress (responseText : jsstring) (x : exchange)
  : exchange :=
  let newText := substring responseText (lastResponseLength x) in
  {| client := scan newText (client x);
     promise := promise x;
     sent := sent x;
     lastResponseLength := length responseText |}.

Definition onloadend (status : Z) (x : exchange) : exchange :=
  if ((200 <=? status)%Z && (status <? 300)%Z)%bool then
    {| client := client x;
       promise := resolve (promise x);
       sent := sent x;
       lastResponseLength := lastResponseLength x |}
  else
    let errorMsg := lit "Request failed. Status: "
                    ++ Number_toString status in
    {| client := client x;
       promise := reject errorMsg (promise x);
       sent := sent x;
       lastResponseLength := lastResponseLength x |}.

Definition onerror (status : Z) (x : exchange) : exchange :=
  let errorMsg := lit "Network request failed. Status: "
                  ++ Number_toString status in
  {| client := onChunk ([10; 10] ++ lit "**Error:** " ++ errorMsg)
                       (client x);
     promise := reject errorMsg (promise x);
     sent := sent x;
     lastResponseLength := lastResponseLength x |}.

Definition dispatch (x : exchange) (e : xhr_event) : exchange :=
  match e with
  | progress responseText => onprogress responseText x
  | error status => onerror status x
  | loadend status => onloadend status x
  end.

Definition API_URL (modelId key : jsstring) : jsstring :=
  lit "https://generativelanguage.googleapis.com/v1beta/models/"
  ++ modelId ++ lit ":streamGenerateContent?key=" ++ key.

Definition missing_key_message : jsstring :=
  lit "Error: API Key is not configured. Please check your .env file.".

(** The executor of the promise, up to and including [xhr.send].
    [GEMINI_API_KEY] is [undefined] ([None]) or a string; [!key] holds
    of [undefined] and of the empty string. *)
Definition streamGeminiResponse (GEMINI_API_KEY : option jsstring)
    (modelId : jsstring) (history : list GeminiContent) (st : St)
  : exchange :=
  match GEMINI_API_KEY with
  | None | Some [] =>
    let errorMsg := missing_key_message in
    {| client := onChunk errorMsg st;
       promise := Rejected errorMsg;
       sent := [];
       lastResponseLength := 0 |}
  | Some key =>
    {| client := st;
       promise := Pending;
       sent := [ {| method := lit "POST";
                    url := API_URL modelId key;
                    headers := [(lit "Content-Type",
                                 lit "application/json")];
                    contents := history |} ];
       lastResponseLength := 0 |}
  end.

(** A whole call: the executor, then the events of the transport.  No
    event reaches the handlers when nothing was sent. *)
Definition run (GEMINI_API_KEY : option jsstring) (modelId : jsstring)
    (history : list GeminiContent) (events : list xhr_event) (st : St)
  : exchange :=
  let x := streamGeminiResponse GEMINI_API_KEY modelId history st in
  match sent x with
  | [] => x
  | _ :: _ => fold_left dispatch events x
  end.
End Callback.

(** The events of a body that arrives as the given growths, after
    [received] has arrived: one [progress] per growth, each seeing the
    whole text received so far. *)
Fixpoint growth_events (received : jsstring) (growths : list jsstring)
  : list xhr_event :=
  match growths with
  | [] => []
  | g :: gs => progress (received ++ g) :: growth_events (received ++ g) gs
  end.

(** A caller that records the calls of [onChunk], in order. *)
Definition record_chunk (chunk : jsstring) (log : list jsstring)
  : list jsstring := log ++ [chunk].

(** Calling [onChunk] on the recorded strings, in order. *)
Definition replay (St : Type) (onChunk : jsstring -> St -> St)
    (log : list jsstring) (st : St) : St :=
  fold_left (fun st chunk => onChunk chunk st) log st.

(** An exchange with a caller and the same exchange with the recording
    caller: the caller's state is the replay of the record from [st], the
    rest is equal. *)
Definition mirrors (St : Type) (onChunk : jsstring -> St -> St)
    (x : exchange St) (y : exchange (list jsstring)) (st : St) : Prop :=
  client x = replay onChunk (client y) st
  /\ promise x = promise y
  /\ sent x = sent y
  /\ lastResponseLength x = lastResponseLength y.

(** A matcher that leaves less than it was given, or no more. *)
Definition consumes (k : jsstring -> option (jsstring * jsstring)) : Prop :=
  forall s g r, k s = Some (g, r) -> (length r < length s)%nat.

Definition keeps (k : jsstring -> option (jsstring * jsstring)) : Prop :=
  forall s g r, k s = Some (g, r) -> (length r <= length s)%nat.

(** The strings passed to [onChunk] while a body arrives as [growths];
    the handlers start from [lastResponseLength = 0] and a pending
    promise, and [onprogress] reads neither the promise nor the request. *)
Definition chunks_of_growths (growths : list jsstring) : list jsstring :=
  client
    (fold_left (dispatch record_chunk) (growth_events [] growths)
       {| client := []; promise := Pending; sent := [];
          lastResponseLength := 0 |}).

End Engine.

(** ** The state of [ChatScreen] and the session store *)

Module Store.

(** The [useState] cells the handlers below read or write. *)
Record State := mkState {
  sessions : list ChatSession;
  activeSessionId : option jsstring;      (* [string | null] *)
  inputText : jsstring;
  isLoading : bool;
  isDrawerVisible : bool;
  selectedModel : jsstring
}.

Definition setSessions (v : list ChatSession) (st : State) : State :=
  {| sessions := v; activeSessionId := activeSessionId st;
     inputText := inputText st; isLoading := isLoading st;
     isDrawerVisible := isDrawerVisible st;
     selectedModel := selectedModel st |}.

Definition setActiveSessionId (v : option jsstring) (st : State) : State :=
  {| sessions := sessions st; activeSessionId := v;
     inputText := inputText st; isLoading := isLoading st;
     isDrawerVisible := isDrawerVisible st;
     selectedModel := selectedModel st |}.

Definition setInputText (v : jsstring) (st : State) : State :=
  {| sessions := sessions st; activeSessionId := activeSessionId st;
     inputText := v; isLoading := isLoading st;
     isDrawerVisible := isDrawerVisible st;
     selectedModel := selectedModel st |}.

Definition setIsLoading (v : bool) (st : State) : State :=
  {| sessions := sessions st; activeSessionId := activeSessionId st;
     inputText := inputText st; isLoading := v;
     isDrawerVisible := isDrawerVisible st;
     selectedModel := selectedModel st |}.

Definition setIsDrawerVisible (v : bool) (st : State) : State :=
  {| sessions := sessions st; activeSessionId := activeSessionId st;
     inputText := inputText st; isLoading := isLoading st;
     isDrawerVisible := v;
     selectedModel := selectedModel st |}.

(** The state of the first render. *)
Definition initial : State :=
  {| sessions := []; activeSessionId := None; inputText := [];
     isLoading := false; isDrawerVisible := false;
     selectedModel := lit "gemini-1.5-flash" |}.

(** [activeSessionId === sessionId], the left side being [string | null]. *)
Definition is_active (st : State) (sessionId : jsstring) : bool :=
  match activeSessionId st with
  | Some a => streq a sessionId
  | None => false
  end.

(** [sessions.find(s => s.id === activeSessionId)]. *)
Definition activeSession (st : State) : option ChatSession :=
  find (fun s => is_active st (id s)) (sessions st).

(** [createNewChat]; [now] is what [Date.now()] returns. *)
Definition createNewChat (now : Z) (st : State) : State :=
  let newSession := {| id := Number_toString now; messages := [] |} in
  setIsDrawerVisible false
    (setActiveSessionId (Some (id newSession))
       (setSessions (newSession :: sessions st) st)).

Definition switchToSession (sessionId : jsstring) (st : State) : State :=
  setIsDrawerVisible false (setActiveSessionId (Some sessionId) st).

(** [deleteSession]; [now] is what [Date.now()] returns if it is read. *)
Definition deleteSession (now : Z) (sessionId : jsstring) (st : State)
  : State :=
  let newSessions :=
    filter (fun s => negb (streq (id s) sessionId)) (sessions st) in
  let st1 := setSessions newSessions st in
  if is_active st sessionId then
    match newSessions with
    | s0 :: _ => setActiveSessionId (Some (id s0)) st1
    | [] =>
      let newSession := {| id := Number_toString now; messages := [] |} in
      setActiveSessionId (Some (id newSession))
        (setSessions [newSession] st1)
    end
  else st1.

(** What the read of storage in [loadHistory] comes to. *)
Inductive stored :=
| Throws                                  (* [getItem] or [JSON.parse] throws *)
| Absent                                  (* [null], or the empty string *)
| Parsed (parsedHistory : list ChatSession).

(** [loadHistory], run once on mount. *)
Definition loadHistory (now : Z) (storedHistory : stored) (st : State)
  : State :=
  match storedHistory with
  | Parsed ((s0 :: _) as parsedHistory) =>
    setActiveSessionId (Some (id s0)) (setSessions parsedHistory st)
  | Parsed [] => createNewChat now st
  | Absent => createNewChat now st
  | Throws => createNewChat now st
  end.

Definition CHAT_HISTORY_KEY : jsstring := lit "chatHistory".

(** [saveHistory]: the [setItem] it issues, if any, as the key and the
    value handed to [JSON.stringify]. *)
Definition saveHistory (sessions : list ChatSession)
  : option (jsstring * list ChatSession) :=
  match sessions with
  | [] => None
  | _ :: _ =>
    let historyToSave := slice_to MAX_HISTORY_LENGTH sessions in
    Some (CHAT_HISTORY_KEY, historyToSave)
  end.

(** The effect on [[sessions, isLoading]]. *)
Definition save_effect (st : State) : option (jsstring * list ChatSession) :=
  if negb (isLoading st) then saveHistory (sessions st) else None.

(** The operations of the drawer, with the clock reading of each. *)
Inductive op :=
| Create (now : Z)
| Delete (now : Z) (sessionId : jsstring).

Definition apply_op (st : State) (o : op) : State :=
  match o with
  | Create now => createNewChat now st
  | Delete now sessionId => deleteSession now sessionId st
  end.

Definition apply_ops (ops : list op) (st : State) : State :=
  fold_left apply_op ops st.

(** The ids of a collection, front first. *)
Definition ids (l : list ChatSession) : list jsstring := map id l.

(** The store is consistent: it holds a session, and the active id is the
    id of one of its sessions. *)
Definition consistent (st : State) : Prop :=
  sessions st <> []
  /\ exists s, In s (sessions st) /\ activeSessionId st = Some (id s).

(** Along [ops] from [st], every [createNewChat] reads a clock value whose
    decimal string is not the id of a session then in the collection. *)
Fixpoint fresh_readings (ops : list op) (st : State) : Prop :=
  match ops with
  | [] => True
  | o :: rest =>
    match o with
    | Create now => ~ In (Number_toString now) (ids (sessions st))
    | Delete _ _ => True
    end
    /\ fresh_readings rest (apply_op st o)
  end.

End Store.

(** ** The conversation controller: [handleSendMessage] *)

Module Controller.

Import Store.

(** The guard of the first line: [true] when the handler returns at
    once. *)
Definition returns_early (st : State) : bool :=
  streq (trim (inputText st)) []
  || isLoading st
  || falsy (activeSessionId st)
  || match activeSession st with
     | None => true
     | Some _ => false
     end.

Definition to_content (msg : Message) : GeminiContent :=
  {| role := if isFromUser msg then user else model;
     parts := [text msg] |}.

Definition fullPrompt (inputText : jsstring) : jsstring :=
  lit "Please format your response in Markdown. Here is my question: "
  ++ inputText.

(** [history], after the [push]. *)
Definition build_history (activeSession : ChatSession)
    (inputText : jsstring) : list GeminiContent :=
  let recentMessages :=
    slice_last CONTEXT_WINDOW_SIZE (messages activeSession) in
  map to_content recentMessages
  ++ [ {| role := user; parts := [fullPrompt inputText] |} ].

(** The updater of the first [setSessions]. *)
Definition append_pair (activeSessionId : jsstring)
    (userMessage aiMessagePlaceholder : Message)
    (prev : list ChatSession) : list ChatSession :=
  map (fun session =>
         if streq (id session) activeSessionId then
           {| id := id session;
              messages := messages session
                          ++ [userMessage; aiMessagePlaceholder] |}
         else session) prev.

(** The updater of [onChunk]. *)
Definition onChunk (activeSessionId : jsstring) (chunk : jsstring)
    (prev : list ChatSession) : list ChatSession :=
  map (fun session =>
         if streq (id session) activeSessionId then
           match last_elem (messages session) with
           | Some lastMessage =>
             let updatedMessage :=
               {| msg_id := msg_id lastMessage;
                  text := text lastMessage ++ chunk;
                  isFromUser := isFromUser lastMessage |} in
             {| id := id session;
                messages := slice_init (messages session)
                            ++ [updatedMessage] |}
           | None => session
           end
         else session) prev.

(** The handler up to [setIsLoading(true)]: the state it leaves, the id
    its [onChunk] closes over and the context it hands to the engine;
    [None] when the handler returns at once.  [now1] and [now2] are the
    two readings of the clock. *)
Record started := mkStarted {
  after_append : State;
  target : jsstring;
  context : list GeminiContent
}.

Definition start_send (now1 now2 : Z) (st : State) : option started :=
  if returns_early st then None
  else
    match activeSessionId st, activeSession st with
    | Some activeSessionId, Some activeSession =>
      let userMessage :=
        {| msg_id := Number_toString now1; text := inputText st;
           isFromUser := true |} in
      let aiMessagePlaceholder :=
        {| msg_id := Number_toString (now2 + 1); text := [];
           isFromUser := false |} in
      let history := build_history activeSession (inputText st) in
      Some {| after_append :=
                setIsLoading true
                  (setInputText []
                     (setSessions
                        (append_pair activeSessionId userMessage
                           aiMessagePlaceholder (sessions st)) st));
              target := activeSessionId;
              context := history |}
    | _, _ => None
    end.

(** One call [streamGeminiResponse(modelId, history, onChunk)] as
    [handleSendMessage] makes it: the arguments it was given and the
    exchange it ran, on the collection and with the [onChunk] that folds
    into the sessions of id [call_target]. *)
Record engine_call := mkCall {
  call_model : jsstring;
  call_history : list GeminiContent;
  call_target : jsstring;
  call_exchange : Engine.exchange (list ChatSession)
}.

Definition call_engine (GEMINI_API_KEY : option jsstring)
    (modelId : jsstring) (history : list GeminiContent)
    (activeSessionId : jsstring) (events : list Engine.xhr_event)
    (prev : list ChatSession) : engine_call :=
  {| call_model := modelId;
     call_history := history;
     call_target := activeSessionId;
     call_exchange :=
       Engine.run (onChunk activeSessionId) GEMINI_API_KEY modelId history
         events prev |}.

(** What one run of [handleSendMessage] leaves: the state, the call of
    the engine if there is one (model and context, read off the call),
    and the requests the engine sent. *)
Record outcome := mkOutcome {
  final : State;
  invoked : option (jsstring * list GeminiContent);
  requests : list Engine.Request
}.

(** [handleSendMessage] when no other handler runs before the promise
    settles; [events] is what the transport delivers once the request is
    sent.  [isLoading] goes back to [false] once the promise has settled.
    The handlers of the request run one event at a time, and other
    handlers may run between two of them: [Live] below has the send in
    that form, and [Interleaving.uninterrupted_send] relates the two. *)
Definition handleSendMessage (GEMINI_API_KEY : option jsstring)
    (now1 now2 : Z) (events : list Engine.xhr_event) (st : State)
  : outcome :=
  match start_send now1 now2 st with
  | None => {| final := st; invoked := None; requests := [] |}
  | Some b =>
    let call :=
      call_engine GEMINI_API_KEY (selectedModel st) (context b) (target b)
        events (sessions (after_append b)) in
    let x := call_exchange call in
    {| final :=
         setIsLoading
           (match Engine.promise x with
            | Engine.Pending => true
            | _ => false
            end)
           (setSessions (Engine.client x) (after_append b));
       invoked := Some (call_model call, call_history call);
       requests := Engine.sent x |}
  end.

End Controller.

(** ** Concrete inputs used below *)

Module Samples.

Import Engine Store.

(** A string in double quotes. *)
Definition quoted (s : string) : jsstring := DQ :: lit s ++ [DQ].

(** The head of a streamed body, up to the middle of the value of its
    [text] field, and the rest of it. *)
Definition body_head : jsstring :=
  lit "[{" ++ quoted "candidates" ++ lit ":[{" ++ quoted "content"
  ++ lit ":{" ++ quoted "parts" ++ lit ":[{" ++ quoted "text" ++ lit ":"
  ++ DQ :: lit "He".

Definition body_tail : jsstring :=
  lit "llo" ++ [DQ] ++ lit "}]}}]}]".

(** A body whose value holds escaped quotes, cut after the first of
    them. *)
Definition escaped_head : jsstring :=
  lit "{" ++ quoted "text" ++ lit ":" ++ DQ :: lit "say " ++ [BSL; DQ].

Definition escaped_tail : jsstring :=
  lit "hi" ++ [BSL; DQ; DQ] ++ lit "}".

Definition a_key : option jsstring := Some (lit "k").

Definition a_model : jsstring := lit "gemini-1.5-flash".

Definition hi_context : list GeminiContent :=
  [ {| role := user; parts := [lit "hi"] |} ].

Definition session_of (n : nat) : ChatSession :=
  {| id := Number_toString (Z.of_nat n); messages := [] |}.

(** 150 sessions, front first. *)
Definition sessions150 : list ChatSession := map session_of (seq 0 150).

Definition msg (i : Z) (t : string) (u : bool) : Message :=
  {| msg_id := Number_toString i; text := lit t; isFromUser := u |}.

(** A state with two sessions, the front one active and holding one
    exchange. *)
Definition two_sessions : State :=
  {| sessions :=
       [ {| id := lit "2";
            messages := [msg 10 "hello" true; msg 11 "Hi there" false] |};
         {| id := lit "1"; messages := [msg 5 "older" true] |} ];
     activeSessionId := Some (lit "2");
     inputText := lit "hi";
     isLoading := false;
     isDrawerVisible := false;
     selectedModel := a_model |}.

(** The same with an input of white space only. *)
Definition blank_input : State :=
  {| sessions := sessions two_sessions;
     activeSessionId := Some (lit "2");
     inputText := lit "   " ++ [9; 10]%N;
     isLoading := false;
     isDrawerVisible := false;
     selectedModel := a_model |}.

(** A state whose only session is active. *)
Definition one_session : State :=
  {| sessions := [ {| id := lit "7"; messages := [msg 8 "q" true] |} ];
     activeSessionId := Some (lit "7");
     inputText := [];
     isLoading := false;
     isDrawerVisible := false;
     selectedModel := a_model |}.

End Samples.

(** ** Bodies as the endpoint writes them *)

Module Wire.

Import Engine.
Local Open Scope N_scope.

(** The key of the pattern, in its quotes. *)
Definition text_key : jsstring := DQ :: lit "text" ++ [DQ].

(** [l] and [s] disagree at a position that both have. *)
Fixpoint differs (l s : jsstring) : bool :=
  match l, s with
  | c :: l', d :: s' => if d =? c then differs l' s' else true
  | _, _ => false
  end.

(** At no position of [s] can the key start, whatever follows [s]. *)
Fixpoint key_free (s : jsstring) : bool :=
  match s with
  | [] => true
  | _ :: tl => differs text_key s && key_free tl
  end.

(** A value written without escapes: no quote, no backslash, no control
    character. *)
Definition plain (v : jsstring) : bool :=
  forallb (fun c => negb (c =? DQ) && negb (c =? BSL) && (32 <=? c)) v.

(** One [text] field of a body, with what precedes it since the field
    before: [lead], the key, [gap1], a colon, [gap2], the value in
    quotes. *)
Record text_field := mkField {
  lead : jsstring;
  gap1 : jsstring;
  gap2 : jsstring;
  value : jsstring
}.

(** A value as it is written between its quotes, escapes included: a
    quote comes only after a backslash that escapes it, a backslash is
    followed by the code unit it escapes, and the value does not end with
    an escaped backslash. *)
Fixpoint raw_ok (e : jsstring) : bool :=
  match e with
  | [] => true
  | c :: tl =>
    if c =? DQ then false
    else if c =? BSL then
      match tl with
      | [] => false
      | x :: tl1 =>
        if x =? BSL then
          match tl1 with
          | [] => false
          | _ :: _ => raw_ok tl1
          end
        else raw_ok tl1
      end
    else raw_ok tl
  end.

(** What the loop of [onprogress] passes to [onChunk] for a captured
    text: the string [JSON.parse] reads in it, or the text itself when
    [JSON.parse] throws. *)
Definition decoded (m1 : jsstring) : jsstring :=
  match JSON_parse (DQ :: m1 ++ [DQ]) with
  | Some decodedText => decodedText
  | None => m1
  end.

Definition well_formed (f : text_field) : bool :=
  key_free (lead f)
  && forallb isWhiteSpace (gap1 f)
  && forallb isWhiteSpace (gap2 f)
  && raw_ok (value f).

Definition render_field (f : text_field) : jsstring :=
  lead f ++ text_key ++ gap1 f ++ [COLON] ++ gap2 f
  ++ DQ :: value f ++ [DQ].

(** A piece of a body: its fields, then [trail]. *)
Definition render (fields : list text_field) (trail : jsstring) : jsstring :=
  concat (map render_field fields) ++ trail.

(** A growth that holds whole fields only. *)
Definition whole_fields (g : list text_field * jsstring) : Prop :=
  Forall (fun f => well_formed f = true) (fst g) /\ key_free (snd g) = true.

End Wire.

(** ** The drawer and the buttons *)

Module Screen.

Import Store Controller.

(** The label of a row of the drawer:
    [item.messages[0]?.text || 'New Chat']. *)
Definition title (item : ChatSession) : jsstring :=
  match messages item with
  | m :: _ =>
    match text m with
    | [] => lit "New Chat"
    | _ :: _ => text m
    end
  | [] => lit "New Chat"
  end.

(** What the user can do.  A row of the drawer exists for each session of
    the collection, and its handlers are called with the id of that
    session. *)
Inductive press :=
| NewChat (now : Z)
| Row (i : nat)
| Trash (now : Z) (i : nat)
| Input (s : jsstring)
| Send (now1 now2 : Z) (events : list Engine.xhr_event).

Definition apply_press (GEMINI_API_KEY : option jsstring) (st : State)
    (p : press) : State :=
  match p with
  | NewChat now => createNewChat now st
  | Row i =>
    match nth_error (sessions st) i with
    | Some item => switchToSession (id item) st
    | None => st
    end
  | Trash now i =>
    match nth_error (sessions st) i with
    | Some item => deleteSession now (id item) st
    | None => st
    end
  | Input s => setInputText s st
  | Send now1 now2 events =>
    final (handleSendMessage GEMINI_API_KEY now1 now2 events st)
  end.

Definition apply_presses (GEMINI_API_KEY : option jsstring)
    (presses : list press) (st : State) : State :=
  fold_left (apply_press GEMINI_API_KEY) presses st.

End Screen.

(** ** A send, one event at a time *)

Module Live.

Import Store Controller.

(** The request in flight: the id its [onChunk] closes over, and the
    promise, the requests and the offset its engine holds. *)
Record flight := mkFlight {
  flight_target : jsstring;
  flight_promise : Engine.settled;
  flight_sent : list Engine.Request;
  flight_offset : nat
}.

(** The state of the screen, and the request in flight if a request was
    sent. *)
Record live := mkLive {
  screen : State;
  in_flight : option flight
}.

Definition idle (st : State) : live :=
  {| screen := st; in_flight := None |}.

(** The [finally] of [handleSendMessage]: it runs when the promise goes
    from pending to settled. *)
Definition settles (before after : Engine.settled) (st : State) : State :=
  match before, after with
  | Engine.Pending, Engine.Pending => st
  | Engine.Pending, _ => setIsLoading false st
  | _, _ => st
  end.

(** What can happen, one at a time: the buttons of the drawer, a change
    of the input (typed, or set by a speech result), the send button, and
    an event of the request in flight. *)
Inductive step :=
| PressNewChat (now : Z)
| PressRow (i : nat)
| PressTrash (now : Z) (i : nat)
| SetInput (s : jsstring)
| PressSend (now1 now2 : Z)
| Event (e : Engine.xhr_event).

(** [handleSendMessage] up to its [await]: the guard, the two updates,
    and the executor of the promise. *)
Definition press_send (GEMINI_API_KEY : option jsstring) (now1 now2 : Z)
    (w : live) : live :=
  match start_send now1 now2 (screen w) with
  | None => w
  | Some b =>
    let x :=
      Engine.streamGeminiResponse (onChunk (target b)) GEMINI_API_KEY
        (selectedModel (screen w)) (context b)
        (sessions (after_append b)) in
    {| screen :=
         settles Engine.Pending (Engine.promise x)
           (setSessions (Engine.client x) (after_append b));
       in_flight :=
         match Engine.sent x with
         | [] => None
         | _ :: _ =>
           Some {| flight_target := target b;
                   flight_promise := Engine.promise x;
                   flight_sent := Engine.sent x;
                   flight_offset := Engine.lastResponseLength x |}
         end |}
  end.

(** One event of the request in flight: its handler runs on the
    collection as it is now. *)
Definition deliver (e : Engine.xhr_event) (w : live) : live :=
  match in_flight w with
  | None => w
  | Some f =>
    let x :=
      Engine.dispatch (onChunk (flight_target f))
        {| Engine.client := sessions (screen w);
           Engine.promise := flight_promise f;
           Engine.sent := flight_sent f;
           Engine.lastResponseLength := flight_offset f |} e in
    {| screen :=
         settles (flight_promise f) (Engine.promise x)
           (setSessions (Engine.client x) (screen w));
       in_flight :=
         Some {| flight_target := flight_target f;
                 flight_promise := Engine.promise x;
                 flight_sent := Engine.sent x;
                 flight_offset := Engine.lastResponseLength x |} |}
  end.

Definition on_screen (f : State -> State) (w : live) : live :=
  {| screen := f (screen w); in_flight := in_flight w |}.

Definition apply_step (GEMINI_API_KEY : option jsstring) (w : live)
    (s : step) : live :=
  match s with
  | PressNewChat now => on_screen (createNewChat now) w
  | PressRow i =>
    match nth_error (sessions (screen w)) i with
    | Some item => on_screen (switchToSession (id item)) w
    | None => w
    end
  | PressTrash now i =>
    match nth_error (sessions (screen w)) i with
    | Some item => on_screen (deleteSession now (id item)) w
    | None => w
    end
  | SetInput s => on_screen (setInputText s) w
  | PressSend now1 now2 => press_send GEMINI_API_KEY now1 now2 w
  | Event e => deliver e w
  end.

Definition apply_steps (GEMINI_API_KEY : option jsstring)
    (steps : list step) (w : live) : live :=
  fold_left (apply_step GEMINI_API_KEY) steps w.

(** The events of the transport among the steps, in order. *)
Fixpoint events_of (steps : list step) : list Engine.xhr_event :=
  match steps with
  | [] => []
  | Event e :: rest => e :: events_of rest
  | _ :: rest => events_of rest
  end.

(** A step that starts no send: the send button is pressed only while
    [isLoading] holds, where the guard stops it. *)
Definition starts_no_send (w : live) (s : step) : Prop :=
  match s with
  | PressSend _ _ => isLoading (screen w) = true
  | _ => True
  end.

(** A step that starts no send and does not delete the sessions of id
    [a]. *)
Definition spares (a : jsstring) (w : live) (s : step) : Prop :=
  match s with
  | PressSend _ _ => isLoading (screen w) = true
  | PressTrash _ i =>
    forall item, nth_error (sessions (screen w)) i = Some item ->
                 id item <> a
  | _ => True
  end.

(** [P] holds of every step, in the state the step is taken in. *)
Fixpoint all_along (P : live -> step -> Prop)
    (GEMINI_API_KEY : option jsstring) (steps : list step) (w : live)
  : Prop :=
  match steps with
  | [] => True
  | s :: rest =>
    P w s /\ all_along P GEMINI_API_KEY rest (apply_step GEMINI_API_KEY w s)
  end.

(** The session [s] after a send: the user message, then the assistant
    message of id [pid] with the text [t]. *)
Definition replied (s : ChatSession) (userMessage : Message)
    (pid t : jsstring) : ChatSession :=
  {| id := id s;
     messages :=
       messages s
       ++ [ userMessage;
            {| msg_id := pid; text := t; isFromUser := false |} ] |}.

(** The flight holds what the recording engine holds. *)
Definition follows (a : jsstring) (f : flight)
    (y : Engine.exchange (list jsstring)) : Prop :=
  flight_target f = a
  /\ flight_promise f = Engine.promise y
  /\ flight_sent f = Engine.sent y
  /\ flight_offset f = Engine.lastResponseLength y.

End Live.

(** ** The clock along a sequence of operations *)

Module Clock.

Import Store.

Definition reading (o : op) : Z :=
  match o with
  | Create now => now
  | Delete now _ => now
  end.

(** Every operation reads the clock at [t] or later, and later than the
    operation before it. *)
Fixpoint advances (t : Z) (ops : list op) : Prop :=
  match ops with
  | [] => True
  | o :: rest => (t <= reading o)%Z /\ advances (reading o + 1) rest
  end.

(** Every id of the collection is the string of a clock reading before
    [t]. *)
Definition ids_before (t : Z) (st : State) : Prop :=
  forall i, In i (ids (sessions st)) ->
            exists r, (r < t)%Z /\ i = Number_toString r.

End Clock.

(** ** More concrete inputs *)

Module MoreSamples.

Import Engine Store Wire Samples.

(** Two pieces of a body in the layout of the endpoint, each holding one
    whole field. *)
Definition piece1 : list text_field * jsstring :=
  ([ {| lead := lit "[{" ++ quoted "candidates" ++ lit ": [{"
                ++ quoted "content" ++ lit ": {" ++ quoted "parts"
                ++ lit ": [{";
        gap1 := [];
        gap2 := lit " ";
        value := lit "Hel" |} ],
   lit "}], " ++ quoted "role" ++ lit ": " ++ quoted "model" ++ lit "}}]}").

Definition piece2 : list text_field * jsstring :=
  ([ {| lead := lit ",{" ++ quoted "candidates" ++ lit ": [{"
                ++ quoted "content" ++ lit ": {" ++ quoted "parts"
                ++ lit ": [{";
        gap1 := lit " ";
        gap2 := [10; 32]%N;
        value := lit "lo, world" |} ],
   lit "}], " ++ quoted "totalTokenCount" ++ lit ": 7}}]}]").

(** A piece whose value holds escapes: a quoted word, a line feed and
    the letter e with an acute accent as a Unicode escape. *)
Definition piece3 : list text_field * jsstring :=
  ([ {| lead := lit ",{";
        gap1 := [];
        gap2 := [];
        value := lit "say " ++ [BSL; DQ] ++ lit "caf" ++ [BSL]
                 ++ lit "u00e9" ++ [BSL; DQ; BSL] ++ lit "n" |} ],
   lit "}").

(** A state whose active session has no message yet. *)
Definition fresh_chat : State :=
  {| sessions := [ {| id := lit "3"; messages := [] |};
                   {| id := lit "2";
                      messages := [msg 10 "hello" true;
                                   msg 11 "Hi there" false] |} ];
     activeSessionId := Some (lit "3");
     inputText := lit "What is Rocq?";
     isLoading := false;
     isDrawerVisible := false;
     selectedModel := a_model |}.

Definition hello_events : list xhr_event :=
  [ progress (render (fst piece1) (snd piece1));
    progress (render (fst piece1) (snd piece1)
              ++ render (fst piece2) (snd piece2));
    loadend 200 ].


(** A send during which the user opens a new chat, dictates, presses
    send again and deletes another chat. *)
Definition busy_steps : list Live.step :=
  [ Live.Event (progress (render (fst piece1) (snd piece1)));
    Live.PressNewChat 200;
    Live.SetInput (lit "dictated");
    Live.PressSend 201 201;
    Live.PressTrash 202 2;
    Live.Event (progress (render (fst piece1) (snd piece1)
                          ++ render (fst piece2) (snd piece2)));
    Live.Event (loadend 200) ].

End MoreSamples.

(** * Properties *)

Unset Implicit Arguments.

(** ** Strings *)

Module JSFacts.

Lemma streq_true (a b : jsstring) : streq a b = true <-> a = b.
Proof.
  unfold streq. destruct (list_eq_dec N.eq_dec a b); split;
    intros; congruence.
Qed.

Lemma streq_false (a b : jsstring) : streq a b = false <-> a <> b.
Proof.
  unfold streq. destruct (list_eq_dec N.eq_dec a b); split;
    intros; congruence.
Qed.

Lemma streq_refl (a : jsstring) : streq a a = true.
Proof. now apply streq_true. Qed.

Lemma lit_inj (s t : string) : lit s = lit t -> s = t.
Proof.
  unfold lit. intros H.
  rewrite <- (string_of_list_ascii_of_string s),
          <- (string_of_list_ascii_of_string t).
  f_equal.
  revert H. generalize (list_ascii_of_string s) (list_ascii_of_string t).
  induction l as [|a l IH]; intros [|b l']; simpl; try discriminate; auto.
  intros H. injection H as Hab Hl. f_equal; auto.
  rewrite <- (ascii_N_embedding a), <- (ascii_N_embedding b).
  now rewrite Hab.
Qed.

(** Distinct clock readings print as distinct ids. *)
Lemma Number_toString_inj (x y : Z) :
  Number_toString x = Number_toString y -> x = y.
Proof.
  unfold Number_toString. intros H. apply lit_inj in H.
  assert (E : Some (Z.to_int x) = Some (Z.to_int y)).
  { rewrite <- (NilEmpty.isi (Z.to_int x)), <- (NilEmpty.isi (Z.to_int y)).
    now rewrite H. }
  injection E as E.
  rewrite <- (DecimalZ.of_to x), <- (DecimalZ.of_to y). now rewrite E.
Qed.

End JSFacts.

(** ** The engine *)

Module EngineFacts.

Import Engine.
Local Open Scope nat_scope.

(** *** A match consumes at least one code unit *)

Lemma group_then_quote_consumes : consumes group_then_quote.
Proof.
  unfold consumes.
  assert (H : forall n s g r, length s <= n ->
                group_then_quote s = Some (g, r) -> length r < length s).
  { induction n as [|n IH]; intros [|c tl] g r Hn; simpl in Hn;
      try discriminate; try lia.
    assert (Htl : forall g' r', group_then_quote tl = Some (g', r') ->
                                length r' < S (length tl)).
    { intros g' r' E. apply IH in E; lia. }
    simpl. remember (group_then_quote tl) as rec_tl eqn:Erec.
    clear Erec.
    destruct (N.eqb c BSL); [destruct tl as [|d tl2]|];
      [ | destruct (N.eqb d DQ);
          [destruct (group_then_quote tl2) as [[g2 r2]|] eqn:E2|] | ];
      try (intros E; inversion E; subst; apply IH in E2; simpl in *; lia);
      destruct (N.eqb c DQ); simpl;
      try (intros E; inversion E; simpl; lia);
      destruct rec_tl as [[g3 r3]|]; intros E; inversion E; subst;
      apply (Htl g3 r); reflexivity. }
  intros s g r. apply (H (length s)). lia.
Qed.

Lemma consumes_keeps k : consumes k -> keeps k.
Proof. intros H s g r E. apply H in E. lia. Qed.

Lemma ws_star_keeps k : keeps k -> keeps (ws_star k).
Proof.
  intros Hk s. induction s as [|c tl IH]; intros g r; simpl.
  - apply Hk.
  - destruct (isWhiteSpace c).
    + destruct (ws_star k tl) as [[g' r']|] eqn:E.
      * intros E'; inversion E'; subst.
        specialize (IH _ _ eq_refl). simpl; lia.
      * apply Hk.
    + apply Hk.
Qed.

Lemma expect_consumes k c : keeps k -> consumes (expect k c).
Proof.
  intros Hk [|d tl] g r; simpl; try discriminate.
  destruct (N.eqb d c); try discriminate.
  intros E. apply Hk in E. lia.
Qed.

Lemma expect_lit_keeps k l : keeps k -> keeps (expect_lit k l).
Proof.
  intros Hk. induction l as [|c l IH]; intros s g r; simpl.
  - apply Hk.
  - destruct s as [|d tl]; try discriminate.
    destruct (N.eqb d c); try discriminate.
    intros E. apply IH in E. simpl; lia.
Qed.

Lemma expect_lit_consumes k c l : keeps k -> consumes (expect_lit k (c :: l)).
Proof.
  intros Hk [|d tl] g r; simpl; try discriminate.
  destruct (N.eqb d c); try discriminate.
  intros E. apply (expect_lit_keeps k l Hk) in E. lia.
Qed.

Lemma match_at_consumes : consumes match_at.
Proof.
  unfold match_at. apply expect_lit_consumes.
  apply ws_star_keeps, consumes_keeps, expect_consumes.
  apply ws_star_keeps, consumes_keeps, expect_consumes.
  apply consumes_keeps, group_then_quote_consumes.
Qed.

Lemma search_consumes : consumes search.
Proof.
  intros s. induction s as [|c tl IH]; intros g r; simpl.
  - discriminate.
  - destruct (match_at (c :: tl)) as [[g' r']|] eqn:E.
    + intros E'; inversion E'; subst. now apply match_at_consumes in E.
    + intros E'. apply IH in E'. simpl; lia.
Qed.

(** [exec] moves [lastIndex] forward, within the subject. *)
Lemma exec_advances lastIndex str m1 lastIndex' :
  exec lastIndex str = (Some m1, lastIndex') ->
  lastIndex < lastIndex' <= length str.
Proof.
  unfold exec. destruct (Nat.ltb_spec (length str) lastIndex) as [Hlt|Hle];
    try discriminate.
  destruct (search (skipn lastIndex str)) as [[g r]|] eqn:E;
    try discriminate.
  intros E'; inversion E'; subst.
  apply search_consumes in E. rewrite length_skipn in E. lia.
Qed.

Section Callback.
Variable St : Type.
Variable onChunk : jsstring -> St -> St.

(** The loop of [onprogress] stops by itself: any bound above the
    number of code units left gives the same run. *)
Lemma scan_loop_fuel fuel fuel' lastIndex newText (st : St) :
  length newText - lastIndex < fuel ->
  length newText - lastIndex < fuel' ->
  scan_loop onChunk fuel lastIndex newText st
  = scan_loop onChunk fuel' lastIndex newText st.
Proof.
  revert fuel' lastIndex st.
  induction fuel as [|fuel IH]; intros [|fuel'] lastIndex st H H';
    try lia.
  simpl. destruct (exec lastIndex newText) as [[m1|] li] eqn:E; auto.
  apply exec_advances in E. apply IH; lia.
Qed.

(** The bound [scan] gives its loop is enough. *)
Lemma scan_fuel_enough fuel newText (st : St) :
  length newText < fuel ->
  scan_loop onChunk fuel 0 newText st = scan onChunk newText st.
Proof. intros H. unfold scan. apply scan_loop_fuel; lia. Qed.

(** What the engine does to its caller is to call [onChunk] on the
    recorded strings, in order. *)
Lemma emit_record m1 log :
  exists chunk, emit record_chunk m1 log = log ++ [chunk]
                /\ forall st, emit onChunk m1 st = onChunk chunk st.
Proof.
  unfold emit, record_chunk.
  destruct (JSON_parse (DQ :: m1 ++ [DQ])); eauto.
Qed.

Lemma scan_loop_replay fuel lastIndex newText log (st : St) :
  exists more,
    scan_loop record_chunk fuel lastIndex newText log = log ++ more
    /\ scan_loop onChunk fuel lastIndex newText (replay onChunk log st)
       = replay onChunk (log ++ more) st.
Proof.
  revert lastIndex log.
  induction fuel as [|fuel IH]; intros lastIndex log; simpl.
  - exists []. now rewrite app_nil_r.
  - destruct (exec lastIndex newText) as [[m1|] li].
    + destruct (emit_record m1 log) as (chunk & E1 & E2).
      rewrite E1, E2.
      destruct (IH li (log ++ [chunk])) as (more & F1 & F2).
      exists (chunk :: more). rewrite F1, <- app_assoc. split; auto.
      replace (onChunk chunk (replay onChunk log st))
        with (replay onChunk (log ++ [chunk]) st)
        by (unfold replay; now rewrite fold_left_app).
      rewrite F2. now rewrite <- app_assoc.
    + exists []. now rewrite app_nil_r.
Qed.

Lemma dispatch_mirrors x y st e :
  mirrors onChunk x y st ->
  mirrors onChunk (dispatch onChunk x e) (dispatch record_chunk y e) st.
Proof.
  intros (Hc & Hp & Hs & Hl). destruct e as [rt|status|status].
  - unfold dispatch, onprogress, scan, mirrors.
    cbn [client promise sent lastResponseLength].
    rewrite Hl, Hc. repeat split; auto.
    destruct (scan_loop_replay
                (S (length (substring rt (lastResponseLength y)))) 0
                (substring rt (lastResponseLength y)) (client y) st)
      as (more & F1 & F2).
    now rewrite F1, F2.
  - unfold dispatch, onerror, mirrors, record_chunk.
    cbn [client promise sent lastResponseLength].
    rewrite Hp, Hc. repeat split; auto.
    unfold replay. now rewrite fold_left_app.
  - unfold dispatch, onloadend, mirrors.
    destruct ((200 <=? status)%Z && (status <? 300)%Z);
      cbn [client promise sent lastResponseLength];
      rewrite Hp; repeat split; auto.
Qed.

Lemma run_mirrors key modelId history events (st : St) :
  mirrors onChunk (run onChunk key modelId history events st)
          (run record_chunk key modelId history events []) st.
Proof.
  unfold run.
  assert (H0 : mirrors onChunk (streamGeminiResponse onChunk key modelId history st)
                 (streamGeminiResponse record_chunk key modelId history [])
                 st).
  { unfold streamGeminiResponse, mirrors, record_chunk, replay.
    destruct key as [[|c k]|]; simpl; repeat split; auto. }
  destruct H0 as (Hc & Hp & Hs & Hl).
  rewrite Hs.
  destruct (sent (streamGeminiResponse record_chunk key modelId history []))
    eqn:E.
  - repeat split; auto. congruence.
  - assert (H0 : mirrors onChunk (streamGeminiResponse onChunk key modelId history st)
                 (streamGeminiResponse record_chunk key modelId history [])
                 st) by (repeat split; auto; congruence).
    clear Hc Hp Hs Hl E. revert H0.
    generalize (streamGeminiResponse onChunk key modelId history st)
               (streamGeminiResponse record_chunk key modelId history []).
    induction events as [|e events IH]; intros x y H; simpl; auto.
    apply IH. now apply dispatch_mirrors.
Qed.
End Callback.

End EngineFacts.

(** ** The engine on a body that arrives in pieces *)

Module Streaming.

Import Engine Samples.
Local Open Scope nat_scope.

Section Callback.
Variable St : Type.
Variable onChunk : jsstring -> St -> St.

(** [onprogress] always moves [lastResponseLength] to the end of what
    has been received, matched or not. *)
Lemma onprogress_offset responseText (x : exchange St) :
  lastResponseLength (onprogress onChunk responseText x)
  = length responseText.
Proof. reflexivity. Qed.

(** Nothing matches in a text of one code unit. *)
Lemma scan_one_unit c (st : St) : scan onChunk [c] st = st.
Proof.
  unfold scan. cbn [length scan_loop].
  replace (exec 0 [c]) with (@None jsstring, 0); [reflexivity|].
  unfold exec. cbn. destruct (N.eqb c DQ); reflexivity.
Qed.

Lemma one_unit_growths body : forall received (x : exchange St),
  lastResponseLength x = length received ->
  client (fold_left (dispatch onChunk)
            (growth_events received (map (fun c => [c]) body)) x)
  = client x.
Proof.
  induction body as [|c body IH]; intros received x Hx; [reflexivity|].
  cbn [map growth_events fold_left]. rewrite IH.
  - cbn [dispatch]. unfold onprogress. cbn [client].
    unfold substring. rewrite Hx, skipn_app, skipn_all, Nat.sub_diag.
    cbn [skipn app]. apply scan_one_unit.
  - apply onprogress_offset.
Qed.
End Callback.

(** A body fed one code unit at a time never reaches [onChunk],
    whatever the body. *)
Lemma one_unit_at_a_time_emits_nothing (body : jsstring) :
  chunks_of_growths (map (fun c => [c]) body) = [].
Proof. unfold chunks_of_growths. now rewrite one_unit_growths. Qed.

(** C1 (the code departs from it): the body [body_head ++ body_tail]
    holds one [text] field with the value [Hello].  Received in one
    growth it gives one call of [onChunk], with [Hello].  Received as
    [body_head] then [body_tail], the cut falling inside the quoted
    value, the first growth gives no call and leaves the offset at the
    end of what was received, and the second growth gives no call
    either: the field is lost, and so it is when the body arrives one
    code unit at a time. *)
Theorem split_text_field_is_lost :
  chunks_of_growths [body_head ++ body_tail] = [lit "Hello"]
  /\ chunks_of_growths [body_head] = []
  /\ chunks_of_growths [body_head; body_tail] = []
  /\ chunks_of_growths (map (fun c => [c]) (body_head ++ body_tail)) = []
  /\ concat (chunks_of_growths [body_head; body_tail])
     <> concat (chunks_of_growths [body_head ++ body_tail]).
Proof.
  assert (W : chunks_of_growths [body_head ++ body_tail] = [lit "Hello"])
    by (vm_compute; reflexivity).
  assert (S2 : chunks_of_growths [body_head; body_tail] = [])
    by (vm_compute; reflexivity).
  refine (conj W (conj _ (conj S2 (conj _ _)))).
  - vm_compute; reflexivity.
  - apply one_unit_at_a_time_emits_nothing.
  - rewrite W, S2. vm_compute. discriminate.
Qed.

(** When the cut falls right after an escaped quote, the first growth
    does match: the pattern takes the backslash as an ordinary code unit
    and the escaped quote as the closing one, [JSON.parse] throws on the
    text so captured, and [onChunk] gets the raw text up to the
    backslash.  The rest of the value is lost. *)
Example split_after_escaped_quote :
  chunks_of_growths [escaped_head ++ escaped_tail]
  = [lit "say " ++ [DQ] ++ lit "hi" ++ [DQ]]
  /\ chunks_of_growths [escaped_head] = [lit "say " ++ [BSL]]
  /\ chunks_of_growths [escaped_head; escaped_tail] = [lit "say " ++ [BSL]].
Proof. vm_compute. exact (conj eq_refl (conj eq_refl eq_refl)). Qed.

End Streaming.

(** ** How the promise settles *)

Module Completion.

Import Engine Samples.

Section Callback.
Variable St : Type.
Variable onChunk : jsstring -> St -> St.

(** [onloadend] never calls [onChunk]. *)
Lemma onloadend_client status (x : exchange St) :
  client (onloadend status x) = client x.
Proof.
  unfold onloadend.
  destruct ((200 <=? status)%Z && (status <? 300)%Z); reflexivity.
Qed.

(** On a pending promise [onloadend] resolves exactly on a status of
    200 to 299. *)
Lemma onloadend_resolves status (x : exchange St) :
  promise x = Pending ->
  (promise (onloadend status x) = Resolved
   <-> (200 <= status < 300)%Z).
Proof.
  intros Hp. unfold onloadend.
  destruct (Z.leb_spec 200 status), (Z.ltb_spec status 300);
    cbn [andb promise]; rewrite Hp; cbn [resolve reject];
    split; intros G; try lia; try discriminate; reflexivity.
Qed.

(** [onprogress] leaves the promise as it is. *)
Lemma onprogress_promise responseText (x : exchange St) :
  promise (onprogress onChunk responseText x) = promise x.
Proof. reflexivity. Qed.

(** [onerror] calls [onChunk] once and rejects a pending promise. *)
Lemma onerror_reports status (x : exchange St) :
  promise x = Pending ->
  exists errorMsg,
    client (onerror onChunk status x)
    = onChunk ([10; 10]%N ++ lit "**Error:** " ++ errorMsg) (client x)
    /\ promise (onerror onChunk status x) = Rejected errorMsg.
Proof.
  intros Hp. eexists. unfold onerror. cbn [client promise].
  rewrite Hp. split; reflexivity.
Qed.
End Callback.

Section Callback.
Variable St : Type.
Variable onChunk : jsstring -> St -> St.

Lemma progress_keeps_promise texts : forall x : exchange St,
  promise (fold_left (dispatch onChunk) (map progress texts) x) = promise x
  /\ sent (fold_left (dispatch onChunk) (map progress texts) x) = sent x.
Proof.
  induction texts as [|t texts IH]; intros x; cbn [map fold_left]; auto.
  destruct (IH (dispatch onChunk x (progress t))) as (P & S).
  rewrite P, S. split; reflexivity.
Qed.

(** An exchange that completes without a network error: whatever the
    final status, [onChunk] has been called for the text fields of the
    body and for nothing else, and the promise is resolved exactly on a
    status of 200 to 299. *)
Lemma completed_exchange c key modelId history texts status (st : St) :
  let received :=
    run onChunk (Some (c :: key)) modelId history (map progress texts) st in
  let x :=
    run onChunk (Some (c :: key)) modelId history
      (map progress texts ++ [loadend status]) st in
  client x = client received
  /\ (promise x = Resolved <-> (200 <= status < 300)%Z).
Proof.
  unfold run. cbn [streamGeminiResponse sent].
  rewrite fold_left_app. cbn [fold_left dispatch].
  split; [apply onloadend_client|].
  apply onloadend_resolves.
  now rewrite (proj1 (progress_keeps_promise texts _)).
Qed.
End Callback.

(** C2 (the code departs from it): a request is sent and the exchange
    ends with status 500, without a network error.  The promise is
    rejected with [Request failed. Status: 500], but [onChunk] is never
    called: no error text reaches the caller.  When the transport
    reports a network error instead, [onerror] does call [onChunk] once
    with an error text before the promise is rejected. *)
Theorem http_failure_is_not_reported :
  let x := run record_chunk a_key a_model hi_context [loadend 500] [] in
  let y := run record_chunk a_key a_model hi_context
             [error 0; loadend 0] [] in
  sent x <> []
  /\ promise x = Rejected (lit "Request failed. Status: 500")
  /\ client x = []
  /\ promise y = Rejected (lit "Network request failed. Status: 0")
  /\ client y = [ [10; 10]%N
                  ++ lit "**Error:** Network request failed. Status: 0" ].
Proof.
  vm_compute.
  refine (conj _ (conj eq_refl (conj eq_refl (conj eq_refl eq_refl)))).
  discriminate.
Qed.

(** C3: when no key is configured ([GEMINI_API_KEY] is undefined or
    empty), whatever the model, the context, the caller and the events
    offered, [onChunk] is called exactly once, with the message saying
    that the key is not configured, the promise is rejected with that
    message, and no request is sent. *)
Theorem missing_key_rejects_without_request
    (St : Type) (onChunk : jsstring -> St -> St)
    (GEMINI_API_KEY : option jsstring) (modelId : jsstring)
    (history : list GeminiContent) (events : list xhr_event) (st : St) :
  falsy GEMINI_API_KEY = true ->
  let x := run onChunk GEMINI_API_KEY modelId history events st in
  client x = onChunk missing_key_message st
  /\ client (run record_chunk GEMINI_API_KEY modelId history events [])
     = [missing_key_message]
  /\ promise x = Rejected missing_key_message
  /\ sent x = [].
Proof.
  intros Hk. destruct GEMINI_API_KEY as [[|c k]|]; try discriminate;
    cbn; repeat split; reflexivity.
Qed.

Lemma missing_key_rejects_without_request_witness :
  falsy None = true
  /\ (let x := run record_chunk None a_model hi_context
                 [progress (body_head ++ body_tail); loadend 200] [] in
      client x = record_chunk missing_key_message []
      /\ client (run record_chunk None a_model hi_context
                   [progress (body_head ++ body_tail); loadend 200] [])
         = [missing_key_message]
      /\ promise x = Rejected missing_key_message
      /\ sent x = []).
Proof.
  split; [reflexivity|].
  apply (missing_key_rejects_without_request (list jsstring) record_chunk
           None a_model hi_context
           [progress (body_head ++ body_tail); loadend 200] []).
  reflexivity.
Defined.

End Completion.

(** ** The session store *)

Module StoreFacts.

Import Store JSFacts Samples.
Local Open Scope nat_scope.

Lemma createNewChat_consistent now st : consistent (createNewChat now st).
Proof.
  split; cbn; [discriminate|].
  eexists; split; [left; reflexivity|reflexivity].
Qed.

Lemma is_active_true st sessionId :
  is_active st sessionId = true <-> activeSessionId st = Some sessionId.
Proof.
  unfold is_active. destruct (activeSessionId st) as [a|].
  - rewrite streq_true. split; congruence.
  - split; discriminate.
Qed.

(** What [filter] keeps in [deleteSession]. *)
Lemma remaining_spec sessionId l s :
  In s (filter (fun s => negb (streq (id s) sessionId)) l)
  <-> In s l /\ id s <> sessionId.
Proof.
  rewrite filter_In, negb_true_iff, streq_false. reflexivity.
Qed.

Lemma deleteSession_consistent now sessionId st :
  consistent st -> consistent (deleteSession now sessionId st).
Proof.
  intros (Hne & s & Hin & Hact). unfold deleteSession.
  destruct (is_active st sessionId) eqn:A.
  - destruct (filter _ (sessions st)) as [|s0 rest] eqn:F.
    + split; cbn; [discriminate|].
      eexists; split; [left; reflexivity|reflexivity].
    + split; cbn; [discriminate|].
      exists s0. split; [left|]; reflexivity.
  - assert (Hs : In s (filter (fun s => negb (streq (id s) sessionId))
                         (sessions st))).
    { apply remaining_spec. split; auto. intros E.
      unfold is_active in A. rewrite Hact, E, streq_refl in A.
      discriminate. }
    split; cbn.
    + intros E. rewrite E in Hs. destruct Hs.
    + exists s; auto.
Qed.

Lemma loadHistory_consistent now storedHistory st :
  consistent (loadHistory now storedHistory st).
Proof.
  destruct storedHistory as [| |[|s0 l]]; unfold loadHistory;
    try apply createNewChat_consistent.
  split; cbn; [discriminate|].
  exists s0. split; [left|]; reflexivity.
Qed.

Lemma apply_ops_consistent ops : forall st,
  consistent st -> consistent (apply_ops ops st).
Proof.
  induction ops as [|o ops IH]; intros st H; cbn; auto.
  apply IH. destruct o; cbn.
  - apply createNewChat_consistent.
  - now apply deleteSession_consistent.
Qed.

(** C4: once [loadHistory] has run on the first state, whatever the
    storage held and whatever the clock reads, after every sequence of
    [createNewChat] and [deleteSession] the collection is not empty and
    the active id is the id of a session of the collection, which
    [activeSession] then finds. *)
Theorem store_stays_consistent (now0 : Z) (storedHistory : stored)
    (ops : list op) :
  let st := apply_ops ops (loadHistory now0 storedHistory initial) in
  sessions st <> []
  /\ (exists s, In s (sessions st) /\ activeSessionId st = Some (id s))
  /\ activeSession st <> None.
Proof.
  intros st.
  assert (H : consistent st)
    by apply apply_ops_consistent, loadHistory_consistent.
  destruct H as (Hne & s & Hin & Hact).
  split; [exact Hne|]. split; [now exists s|].
  unfold activeSession. intros E.
  apply (find_none _ _ E) in Hin.
  unfold is_active in Hin. rewrite Hact, streq_refl in Hin. discriminate.
Qed.

(** C5: [deleteSession] keeps, in their order, the sessions whose id is
    not the given one.  When the given id is not the active one the active
    id stays.  When it is the active one and sessions remain, the front of
    what remains becomes active.  When it is the active one and nothing
    remains, the collection becomes one new session without messages,
    which is active; this is what happens when the only session, being
    active, is deleted. *)
Theorem deleteSession_spec (now : Z) (sessionId : jsstring) (st : State) :
  let remaining :=
    filter (fun s => negb (streq (id s) sessionId)) (sessions st) in
  let st' := deleteSession now sessionId st in
  (forall s, In s remaining <-> In s (sessions st) /\ id s <> sessionId)
  /\ (activeSessionId st <> Some sessionId ->
      sessions st' = remaining /\ activeSessionId st' = activeSessionId st)
  /\ (activeSessionId st = Some sessionId ->
      forall s0 rest, remaining = s0 :: rest ->
      sessions st' = remaining /\ activeSessionId st' = Some (id s0))
  /\ (activeSessionId st = Some sessionId -> remaining = [] ->
      exists fresh, sessions st' = [fresh] /\ messages fresh = []
                    /\ activeSessionId st' = Some (id fresh))
  /\ (forall only, sessions st = [only] -> sessionId = id only ->
      activeSessionId st = Some (id only) ->
      exists fresh, sessions st' = [fresh] /\ messages fresh = []
                    /\ activeSessionId st' = Some (id fresh)).
Proof.
  intros remaining st'.
  assert (Empty : activeSessionId st = Some sessionId -> remaining = [] ->
            exists fresh, sessions st' = [fresh] /\ messages fresh = []
                          /\ activeSessionId st' = Some (id fresh)).
  { intros A R. apply is_active_true in A.
    subst st'. unfold deleteSession. fold remaining. rewrite A, R.
    eexists. cbn. repeat split. }
  split; [intros s; apply remaining_spec|].
  split; [|split; [|split; [exact Empty|]]].
  - intros A. subst st'. unfold deleteSession. fold remaining.
    destruct (is_active st sessionId) eqn:B.
    + apply is_active_true in B. contradiction.
    + split; reflexivity.
  - intros A s0 rest R. apply is_active_true in A.
    subst st'. unfold deleteSession. fold remaining. rewrite A, R.
    split; reflexivity.
  - intros only S E A. subst sessionId. apply Empty; auto.
    subst remaining. rewrite S. cbn. now rewrite streq_refl.
Qed.

Lemma deleteSession_spec_witness :
  sessions one_session = [ {| id := lit "7";
                              messages := [msg 8 "q" true] |} ]
  /\ activeSessionId one_session = Some (lit "7")
  /\ exists fresh,
       sessions (deleteSession 9 (lit "7") one_session) = [fresh]
       /\ messages fresh = []
       /\ activeSessionId (deleteSession 9 (lit "7") one_session)
          = Some (id fresh).
Proof.
  split; [reflexivity|]. split; [reflexivity|].
  apply (deleteSession_spec 9 (lit "7") one_session)
    with (only := {| id := lit "7"; messages := [msg 8 "q" true] |});
    reflexivity.
Defined.

Lemma saveHistory_empty : saveHistory [] = None.
Proof. reflexivity. Qed.

(** C8: [saveHistory] of a collection that is not empty issues one write,
    of the front of the collection: the first [MAX_HISTORY_LENGTH]
    sessions, in their order, or all of them when there are fewer; what
    comes after is dropped.  Of 150 sessions, with [MAX_HISTORY_LENGTH]
    being 100, the 100 at the front are written and the other 50 are
    dropped. *)
Theorem saveHistory_keeps_front (sessions : list ChatSession) :
  sessions <> [] ->
  exists historyToSave dropped,
    saveHistory sessions = Some (CHAT_HISTORY_KEY, historyToSave)
    /\ sessions = historyToSave ++ dropped
    /\ length historyToSave = Nat.min MAX_HISTORY_LENGTH (length sessions)
    /\ length historyToSave <= MAX_HISTORY_LENGTH
    /\ (MAX_HISTORY_LENGTH = 100 -> length sessions = 150 ->
        length historyToSave = 100 /\ length dropped = 50).
Proof.
  intros Hne.
  exists (firstn MAX_HISTORY_LENGTH sessions),
         (skipn MAX_HISTORY_LENGTH sessions).
  split; [destruct sessions; [contradiction|reflexivity]|].
  split; [symmetry; apply firstn_skipn|].
  rewrite length_firstn, length_skipn.
  split; [reflexivity|]. split; [lia|]. intros M L. lia.
Qed.

Lemma saveHistory_keeps_front_witness :
  sessions150 <> []
  /\ length sessions150 = 150
  /\ exists historyToSave dropped,
       saveHistory sessions150 = Some (CHAT_HISTORY_KEY, historyToSave)
       /\ sessions150 = historyToSave ++ dropped
       /\ length historyToSave = Nat.min MAX_HISTORY_LENGTH (length sessions150)
       /\ length historyToSave <= MAX_HISTORY_LENGTH
       /\ (MAX_HISTORY_LENGTH = 100 -> length sessions150 = 150 ->
           length historyToSave = 100 /\ length dropped = 50).
Proof.
  split; [discriminate|]. split; [reflexivity|].
  apply (saveHistory_keeps_front sessions150). discriminate.
Defined.

End StoreFacts.

(** ** Session ids *)

Module SessionIds.

Import Store JSFacts Samples.

(** A new session takes the decimal string of the clock reading as its
    id and goes to the front. *)
Lemma createNewChat_ids now st :
  ids (sessions (createNewChat now st))
  = Number_toString now :: ids (sessions st).
Proof. reflexivity. Qed.

Lemma remaining_NoDup sessionId l :
  NoDup (ids l) ->
  NoDup (ids (filter (fun s => negb (streq (id s) sessionId)) l)).
Proof.
  induction l as [|s l IH]; cbn; intros H; [constructor|].
  inversion H as [|x xs Hx Hxs]; subst.
  destruct (negb (streq (id s) sessionId)); cbn; auto.
  constructor; auto.
  intros Hin. apply Hx. unfold ids in *.
  apply in_map_iff in Hin. destruct Hin as (s' & E & Hs').
  apply filter_In in Hs'. apply in_map_iff. exists s'. tauto.
Qed.

Lemma deleteSession_NoDup now sessionId st :
  NoDup (ids (sessions st)) ->
  NoDup (ids (sessions (deleteSession now sessionId st))).
Proof.
  intros H. apply (remaining_NoDup sessionId) in H.
  unfold deleteSession.
  destruct (is_active st sessionId); [|exact H].
  destruct (filter _ (sessions st)) as [|s0 rest]; [|exact H].
  cbn. constructor; [intros []|constructor].
Qed.

Lemma deleted_ids now sessionId st i :
  In i (ids (sessions (deleteSession now sessionId st))) ->
  In i (ids (sessions st)) \/ i = Number_toString now.
Proof.
  assert (F : forall l, In i (ids (filter
                 (fun s => negb (streq (id s) sessionId)) l)) ->
               In i (ids l)).
  { intros l H. unfold ids in *. apply in_map_iff in H.
    destruct H as (s & E & H). apply filter_In in H.
    apply in_map_iff. exists s. tauto. }
  unfold deleteSession. destruct (is_active st sessionId).
  - destruct (filter _ (sessions st)) as [|s0 rest] eqn:E.
    + cbn. intros [H|[]]. now right.
    + cbn [sessions setActiveSessionId setSessions]. intros H. left.
      apply F. now rewrite E.
  - cbn [sessions setSessions]. intros H. left. now apply F.
Qed.

Lemma ids_come_from_the_clock ops : forall st i,
  In i (ids (sessions (apply_ops ops st))) ->
  In i (ids (sessions st))
  \/ exists o, In o ops /\ i = Number_toString (Clock.reading o).
Proof.
  induction ops as [|o ops IH]; intros st i H; cbn in H; [now left|].
  destruct (IH _ _ H) as [Hin|(o' & Ho' & E)].
  - destruct o as [now|now sessionId]; cbn [apply_op] in Hin.
    + rewrite createNewChat_ids in Hin. destruct Hin as [<-|Hin].
      * right. exists (Create now). split; [now left|reflexivity].
      * now left.
    + apply deleted_ids in Hin. destruct Hin as [Hin| ->].
      * now left.
      * right. exists (Delete now sessionId). split; [now left|reflexivity].
  - right. exists o'. split; [now right|exact E].
Qed.

(** C9, as the code has it: a session made by [createNewChat] has the
    decimal string of the clock reading as its id, goes to the front and
    is active; the session [deleteSession] makes, when the active session
    is deleted and nothing remains, has the decimal string of the clock
    reading as its id too, and is the only session of the collection.
    Along any sequence of [createNewChat] and [deleteSession] every id of
    the collection is an id it had at the start or the string of the
    clock reading of one of the operations.  From a collection whose ids
    are pairwise distinct, along every such sequence in which each
    [createNewChat] reads a clock value whose string is not yet an id of
    the collection, the ids stay pairwise distinct. *)
Theorem ids_distinct_when_readings_fresh (ops : list op) (st : State) :
  NoDup (ids (sessions st)) ->
  fresh_readings ops st ->
  NoDup (ids (sessions (apply_ops ops st)))
  /\ (forall i, In i (ids (sessions (apply_ops ops st))) ->
        In i (ids (sessions st))
        \/ exists o, In o ops /\ i = Number_toString (Clock.reading o))
  /\ (forall now st0,
        sessions (createNewChat now st0)
        = {| id := Number_toString now; messages := [] |} :: sessions st0
        /\ activeSessionId (createNewChat now st0)
           = Some (Number_toString now))
  /\ (forall now sessionId st0,
        activeSessionId st0 = Some sessionId ->
        filter (fun s => negb (streq (id s) sessionId)) (sessions st0) = [] ->
        sessions (deleteSession now sessionId st0)
        = [ {| id := Number_toString now; messages := [] |} ]
        /\ activeSessionId (deleteSession now sessionId st0)
           = Some (Number_toString now)).
Proof.
  intros H F. split; [|split; [|split]].
  - revert st H F. induction ops as [|o ops IH]; intros st H F; cbn; auto.
    destruct F as (Fo & Frest). apply IH; auto.
    destruct o as [now|now sessionId]; cbn [apply_op].
    + rewrite createNewChat_ids. now constructor.
    + now apply deleteSession_NoDup.
  - intros i. apply ids_come_from_the_clock.
  - intros now st0. split; reflexivity.
  - intros now sessionId st0 A E. unfold deleteSession, is_active.
    rewrite A, streq_refl, E. split; reflexivity.
Qed.

Lemma ids_distinct_when_readings_fresh_witness :
  let st := loadHistory 1 Absent initial in
  let ops := [Create 2; Delete 3 (lit "2"); Delete 4 (lit "1"); Create 5] in
  NoDup (ids (sessions st))
  /\ fresh_readings ops st
  /\ NoDup (ids (sessions (apply_ops ops st)))
  /\ ids (sessions (apply_ops ops st)) = [lit "5"; lit "4"].
Proof.
  intros st ops.
  assert (H : NoDup (ids (sessions st)))
    by (cbn; constructor; [intros []|constructor]).
  assert (F : fresh_readings ops st)
    by (cbn; repeat split; intros G;
        repeat destruct G as [G|G]; try discriminate; exact G).
  split; [exact H|]. split; [exact F|].
  split; [|reflexivity].
  exact (proj1 (ids_distinct_when_readings_fresh ops st H F)).
Defined.

(** C9 as stated fails: the first session is made when the clock reads
    1700000000000; a new chat made while the clock still reads that value
    gets the id of the session already in the collection. *)
Lemma same_reading_gives_same_id :
  let st := loadHistory 1700000000000 Absent initial in
  let st' := createNewChat 1700000000000 st in
  NoDup (ids (sessions st))
  /\ In (hd [] (ids (sessions st'))) (ids (sessions st))
  /\ ~ NoDup (ids (sessions st')).
Proof.
  cbn zeta. split; [|split].
  - cbn. constructor; [intros []|constructor].
  - left. reflexivity.
  - intros H. inversion H as [|x xs Hx Hxs]; subst.
    apply Hx. left. reflexivity.
Qed.

End SessionIds.

(** ** The conversation controller *)

Module ControllerFacts.

Import Store Controller JSFacts EngineFacts Samples.
Local Open Scope nat_scope.

Lemma last_elem_nil {A : Type} : last_elem (@nil A) = None.
Proof. reflexivity. Qed.

Lemma last_elem_snoc {A : Type} (l : list A) (x : A) :
  last_elem (l ++ [x]) = Some x.
Proof.
  unfold last_elem. rewrite length_app, nth_error_app2; cbn [length]; [|lia].
  replace (length l + 1 - 1 - length l) with 0 by lia. reflexivity.
Qed.

Lemma slice_init_snoc {A : Type} (l : list A) (x : A) :
  slice_init (l ++ [x]) = l.
Proof.
  unfold slice_init. rewrite length_app. cbn [length].
  replace (length l + 1 - 1) with (length l + 0) by lia.
  rewrite firstn_app_2. cbn. apply app_nil_r.
Qed.


(** The guard, read back. *)
Lemma returns_early_false st :
  returns_early st = false ->
  trim (inputText st) <> []
  /\ isLoading st = false
  /\ exists a s, activeSessionId st = Some a /\ activeSession st = Some s
                 /\ id s = a.
Proof.
  unfold returns_early. intros H.
  apply orb_false_iff in H. destruct H as (H & Hs).
  apply orb_false_iff in H. destruct H as (H & Hf).
  apply orb_false_iff in H. destruct H as (Ht & Hl).
  split; [now apply streq_false|]. split; [exact Hl|].
  destruct (activeSessionId st) as [a|] eqn:A; [|discriminate].
  destruct (activeSession st) as [s|] eqn:S; [|discriminate].
  exists a, s. repeat split.
  unfold activeSession in S. apply find_some in S. destruct S as (_ & S).
  unfold is_active in S. rewrite A in S. apply streq_true in S. congruence.
Qed.

(** C6: when the input trims to the empty string, or a send is in
    flight, or the active id is not the id of a session, the handler
    returns at once: the state is the one it was given, the engine is not
    called and no request is sent, whatever the key, the clock and the
    transport. *)
Theorem handleSendMessage_guarded (GEMINI_API_KEY : option jsstring)
    (now1 now2 : Z) (events : list Engine.xhr_event) (st : State) :
  trim (inputText st) = [] \/ isLoading st = true \/ activeSession st = None ->
  handleSendMessage GEMINI_API_KEY now1 now2 events st
  = {| final := st; invoked := None; requests := [] |}.
Proof.
  intros H. unfold handleSendMessage, start_send.
  destruct (returns_early st) eqn:R; [reflexivity|].
  apply returns_early_false in R.
  destruct R as (Ht & Hl & a & s & _ & Hs & _).
  destruct H as [H|[H|H]]; congruence.
Qed.

Lemma handleSendMessage_guarded_witness :
  trim (inputText blank_input) = []
  /\ handleSendMessage a_key 100 100
       [Engine.progress (body_head ++ body_tail); Engine.loadend 200]
       blank_input
     = {| final := blank_input; invoked := None; requests := [] |}.
Proof.
  split; [reflexivity|].
  apply (handleSendMessage_guarded a_key 100 100
           [Engine.progress (body_head ++ body_tail); Engine.loadend 200]
           blank_input).
  left. reflexivity.
Defined.

Lemma find_map_same {A : Type} (p : A -> bool) (g : A -> A) (l : list A) :
  (forall x, p (g x) = p x) ->
  find p (map g l) = option_map g (find p l).
Proof.
  intros H. induction l as [|x l IH]; cbn; [reflexivity|].
  rewrite H. destruct (p x); auto.
Qed.

Lemma dispatch_keeps_sent {St : Type} (onChunk : jsstring -> St -> St)
    (x : Engine.exchange St) e :
  Engine.sent (Engine.dispatch onChunk x e) = Engine.sent x.
Proof.
  destruct e as [t|status|status]; cbn; auto.
  unfold Engine.onloadend.
  destruct ((200 <=? status)%Z && (status <? 300)%Z); reflexivity.
Qed.

(** With a key, the requests of a call are the one of the executor. *)
Lemma run_sends_once {St : Type} (onChunk : jsstring -> St -> St)
    c key modelId history events (st : St) :
  Engine.sent (Engine.run onChunk (Some (c :: key)) modelId history events st)
  = [ {| Engine.method := lit "POST";
         Engine.url := Engine.API_URL modelId (c :: key);
         Engine.headers := [(lit "Content-Type", lit "application/json")];
         Engine.contents := history |} ].
Proof.
  unfold Engine.run. cbn [Engine.streamGeminiResponse Engine.sent].
  match goal with |- Engine.sent (fold_left _ _ ?x0) = _ =>
    change (Engine.sent (fold_left (Engine.dispatch onChunk) events x0)
            = Engine.sent x0); generalize x0 end.
  induction events as [|e events IH]; intros x; cbn [fold_left]; auto.
  now rewrite IH, dispatch_keeps_sent.
Qed.



End ControllerFacts.

(** ** What a send leaves untouched *)

Module Frame.

Import Store Controller JSFacts EngineFacts ControllerFacts Samples.
Local Open Scope nat_scope.

Lemma append_pair_other target um ph prev i s :
  nth_error prev i = Some s -> id s <> target ->
  nth_error (append_pair target um ph prev) i = Some s.
Proof.
  intros H Hid. unfold append_pair. rewrite nth_error_map, H. cbn.
  apply streq_false in Hid. now rewrite Hid.
Qed.

Lemma onChunk_other target chunk prev i s :
  nth_error prev i = Some s -> id s <> target ->
  nth_error (onChunk target chunk prev) i = Some s.
Proof.
  intros H Hid. unfold onChunk. rewrite nth_error_map, H. cbn.
  apply streq_false in Hid. now rewrite Hid.
Qed.

Lemma replay_other target log : forall prev i s,
  nth_error prev i = Some s -> id s <> target ->
  nth_error (Engine.replay (onChunk target) log prev) i = Some s.
Proof.
  induction log as [|chunk log IH]; intros prev i s H Hid; cbn; auto.
  apply IH; auto. now apply onChunk_other.
Qed.

(** C10: the update that appends the pair and the update of [onChunk]
    keep the number of sessions and leave in place, as it is, every
    session whose id is not the target.  On a session with the target id,
    the first appends the two messages; the second leaves a session
    without messages as it is, and otherwise keeps the earlier messages
    and replaces the last one by a message with the same id and the same
    [isFromUser] whose text is the old text followed by the chunk.  Over a
    whole [handleSendMessage], whatever the transport delivers, every
    session whose id is not the active one is left in place as it is. *)
Theorem send_touches_only_target (target : jsstring)
    (userMessage aiMessagePlaceholder : Message) (chunk : jsstring)
    (prev : list ChatSession) :
  length (append_pair target userMessage aiMessagePlaceholder prev)
  = length prev
  /\ length (onChunk target chunk prev) = length prev
  /\ (forall i s, nth_error prev i = Some s -> id s <> target ->
        nth_error (append_pair target userMessage aiMessagePlaceholder prev) i
        = Some s
        /\ nth_error (onChunk target chunk prev) i = Some s)
  /\ (forall i s, nth_error prev i = Some s -> id s = target ->
        nth_error (append_pair target userMessage aiMessagePlaceholder prev) i
        = Some {| id := id s;
                  messages := messages s
                              ++ [userMessage; aiMessagePlaceholder] |}
        /\ (messages s = [] ->
            nth_error (onChunk target chunk prev) i = Some s)
        /\ (forall earlier lastMessage,
              messages s = earlier ++ [lastMessage] ->
              nth_error (onChunk target chunk prev) i
              = Some {| id := id s;
                        messages :=
                          earlier
                          ++ [ {| msg_id := msg_id lastMessage;
                                  text := text lastMessage ++ chunk;
                                  isFromUser := isFromUser lastMessage |} ]
                     |}))
  /\ (forall key now1 now2 events st i s,
        activeSessionId st = Some target ->
        nth_error (sessions st) i = Some s -> id s <> target ->
        nth_error
          (sessions (final (handleSendMessage key now1 now2 events st))) i
        = Some s).
Proof.
  split; [apply length_map|]. split; [apply length_map|].
  split; [|split].
  - intros i s H Hid. split.
    + now apply append_pair_other.
    + now apply onChunk_other.
  - intros i s H Hid. apply streq_true in Hid.
    unfold append_pair, onChunk. rewrite !nth_error_map, H. cbn.
    rewrite Hid. split; [reflexivity|]. split.
    + intros E. rewrite E. cbn. reflexivity.
    + intros earlier lastMessage E. rewrite E.
      now rewrite last_elem_snoc, slice_init_snoc.
  - intros key now1 now2 events st i s A H Hid.
    unfold handleSendMessage.
    destruct (start_send now1 now2 st) as [b|] eqn:B; [|exact H].
    cbn [final]. unfold setIsLoading, setSessions. cbn [sessions].
    unfold start_send in B.
    destruct (returns_early st); [discriminate|].
    rewrite A in B.
    destruct (activeSession st) as [s0|]; [|discriminate].
    injection B as B. subst b. cbn [Controller.target context after_append].
    unfold call_engine. cbn [call_exchange].
    destruct (run_mirrors _ (onChunk target) key (selectedModel st)
                (build_history s0 (inputText st)) events
                (sessions
                   (setIsLoading true
                      (setInputText []
                         (setSessions
                            (append_pair target
                               {| msg_id := Number_toString now1;
                                  text := inputText st;
                                  isFromUser := true |}
                               {| msg_id := Number_toString (now2 + 1);
                                  text := [];
                                  isFromUser := false |}
                               (sessions st)) st)))))
      as (Hc & _).
    rewrite Hc. apply replay_other; auto.
    cbn [sessions setIsLoading setInputText setSessions].
    now apply append_pair_other.
Qed.

Lemma send_touches_only_target_witness :
  nth_error (sessions two_sessions) 1
  = Some {| id := lit "1"; messages := [msg 5 "older" true] |}
  /\ nth_error
       (sessions
          (final (handleSendMessage a_key 100 100
                    [Engine.progress (body_head ++ body_tail);
                     Engine.loadend 200] two_sessions))) 1
     = Some {| id := lit "1"; messages := [msg 5 "older" true] |}.
Proof.
  split; [reflexivity|].
  apply (send_touches_only_target (lit "2") (msg 0 "" true) (msg 0 "" false)
           [] []);
    [reflexivity | reflexivity | discriminate].
Defined.

(** The scenario of the specification: one earlier exchange, the user
    sends [hi], the engine emits [He] then [llo]. *)
Example hello_scenario :
  let body :=
    quoted "text" ++ lit ":" ++ quoted "He" ++ lit ","
    ++ quoted "text" ++ lit ":" ++ quoted "llo" in
  option_map messages
    (activeSession
       (final (handleSendMessage a_key 100 100
                 [Engine.progress body; Engine.loadend 200] two_sessions)))
  = Some [ msg 10 "hello" true; msg 11 "Hi there" false;
           msg 100 "hi" true; msg 101 "Hello" false ].
Proof. vm_compute. reflexivity. Qed.

End Frame.

(** ** The engine on whole fields, and on how an exchange ends *)

Module EngineMore.

Import Engine EngineFacts Wire Samples MoreSamples.
Local Open Scope nat_scope.

Lemma replay_record log : forall st, replay record_chunk log st = st ++ log.
Proof.
  induction log as [|c log IH]; intros st; cbn.
  - now rewrite app_nil_r.
  - unfold replay in IH. rewrite IH. unfold record_chunk.
    now rewrite <- app_assoc.
Qed.

(** The chunks of a text go after those already recorded. *)
Lemma scan_record newText log :
  scan record_chunk newText log = log ++ scan record_chunk newText [].
Proof.
  unfold scan.
  destruct (scan_loop_replay _ record_chunk (S (length newText)) 0 newText
              [] log) as (more & F1 & F2).
  cbn [replay fold_left app] in F1, F2.
  rewrite F2, F1. apply replay_record.
Qed.

Lemma growths_scanned_alone gs : forall received (x : exchange (list jsstring)),
  lastResponseLength x = length received ->
  client (fold_left (dispatch record_chunk) (growth_events received gs) x)
  = client x ++ flat_map (fun g => scan record_chunk g []) gs.
Proof.
  induction gs as [|g gs IH]; intros received x Hx; cbn [growth_events fold_left flat_map].
  - now rewrite app_nil_r.
  - rewrite (IH (received ++ g)); [|reflexivity].
    cbn [dispatch]. unfold onprogress. cbn [client]. unfold substring.
    rewrite Hx, skipn_app, skipn_all, Nat.sub_diag. cbn [skipn app].
    rewrite scan_record. now rewrite app_assoc.
Qed.

Lemma chunks_of_growths_flat growths :
  chunks_of_growths growths
  = flat_map (fun g => scan record_chunk g []) growths.
Proof.
  unfold chunks_of_growths. now rewrite (growths_scanned_alone growths []).
Qed.

(** X1: every [progress] event scans the text that arrived since the
    event before, and nothing else.  The chunks of a body that arrives as
    a list of growths are those of each growth received alone, in order:
    no field is passed to [onChunk] twice, and a field is found only if
    one growth holds it whole. *)
Theorem growths_are_scanned_one_by_one (growths more : list jsstring) :
  chunks_of_growths growths
  = flat_map (fun g => chunks_of_growths [g]) growths
  /\ chunks_of_growths (growths ++ more)
     = chunks_of_growths growths ++ chunks_of_growths more.
Proof.
  split.
  - rewrite chunks_of_growths_flat. apply flat_map_ext. intros g.
    rewrite chunks_of_growths_flat. cbn. now rewrite app_nil_r.
  - rewrite !chunks_of_growths_flat. apply flat_map_app.
Qed.

(** *** The pattern on a well-formed field *)

Section Matchers.
Variable A : Type.
Variable k : jsstring -> option A.

Lemma differs_expect_lit l : forall s rest,
  differs l s = true -> expect_lit k l (s ++ rest) = None.
Proof.
  induction l as [|c l IH]; intros [|d s] rest; cbn; try discriminate.
  destruct (N.eqb d c); auto.
Qed.

Lemma expect_lit_app l : forall rest, expect_lit k l (l ++ rest) = k rest.
Proof.
  induction l as [|c l IH]; intros rest; cbn; auto.
  now rewrite N.eqb_refl.
Qed.

Lemma ws_star_gap gap : forall s m,
  forallb isWhiteSpace gap = true ->
  ws_star k s = Some m -> ws_star k (gap ++ s) = Some m.
Proof.
  induction gap as [|c gap IH]; intros s m G H; cbn; auto.
  cbn in G. apply andb_prop in G. destruct G as (Gc & G).
  rewrite Gc, (IH s m G H). reflexivity.
Qed.
End Matchers.

Lemma key_free_search s : forall rest,
  key_free s = true -> search (s ++ rest) = search rest.
Proof.
  induction s as [|c s IH]; intros rest H; [reflexivity|].
  cbn [key_free] in H. apply andb_prop in H. destruct H as (D & F).
  cbn [app search].
  replace (match_at (c :: s ++ rest)) with (@None (jsstring * jsstring)).
  - now apply IH.
  - symmetry. apply (differs_expect_lit _ _ text_key (c :: s) rest D).
Qed.

Lemma search_hit s m : match_at s = Some m -> search s = Some m.
Proof. intros H. destruct s; cbn [search]; now rewrite H. Qed.

(** On a value written as [raw_ok] says, the star of the pattern walks
    the escapes as the writer meant them and stops at the closing quote. *)
Lemma group_raw : forall n e rest,
  length e <= n -> raw_ok e = true ->
  group_then_quote (e ++ DQ :: rest) = Some (e, rest).
Proof.
  induction n as [|n IH]; intros [|c tl] rest Hn R; cbn [length] in Hn;
    try lia; try reflexivity.
  cbn [raw_ok] in R. cbn [app group_then_quote].
  destruct (N.eqb c DQ) eqn:Q; [discriminate|]. cbn [negb].
  destruct (N.eqb c BSL) eqn:B.
  - destruct tl as [|x tl1]; [discriminate|]. cbn [app].
    destruct (N.eqb x DQ) eqn:XQ.
    + replace (N.eqb x BSL) with false in R
        by (apply N.eqb_eq in XQ; subst x; reflexivity).
      cbn [length] in Hn. rewrite (IH tl1 rest); [reflexivity|lia|exact R].
    + assert (G : group_then_quote (x :: tl1 ++ DQ :: rest)
                  = Some (x :: tl1, rest)).
      { cbn [group_then_quote]. rewrite XQ. cbn [negb].
        destruct (N.eqb x BSL) eqn:XB.
        - destruct tl1 as [|y tl2]; [discriminate|]. cbn [app].
          assert (YQ : N.eqb y DQ = false).
          { cbn [raw_ok] in R. destruct (N.eqb y DQ); [discriminate|auto]. }
          rewrite YQ.
          change (y :: tl2 ++ DQ :: rest) with ((y :: tl2) ++ DQ :: rest).
          cbn [length] in Hn. rewrite (IH (y :: tl2) rest); [reflexivity| |exact R].
          cbn [length]. lia.
        - cbn [length] in Hn. rewrite (IH tl1 rest); [reflexivity|lia|exact R]. }
      change (x :: tl1 ++ DQ :: rest) with ((x :: tl1) ++ DQ :: rest) in G.
      cbn [app] in G. now rewrite G.
  - rewrite (IH tl rest); [reflexivity|lia|exact R].
Qed.

Lemma plain_raw v : plain v = true -> raw_ok v = true.
Proof.
  induction v as [|c v IH]; intros P; [reflexivity|].
  cbn [plain forallb] in P. apply andb_prop in P. destruct P as (Pc & P).
  apply andb_prop in Pc. destruct Pc as (Pc & _).
  apply andb_prop in Pc. destruct Pc as (Pq & Pb).
  apply negb_true_iff in Pq, Pb.
  cbn [raw_ok]. rewrite Pq, Pb. now apply IH.
Qed.

Lemma match_field g1 g2 v rest :
  forallb isWhiteSpace g1 = true -> forallb isWhiteSpace g2 = true ->
  raw_ok v = true ->
  match_at (text_key ++ g1 ++ [COLON] ++ g2 ++ DQ :: v ++ [DQ] ++ rest)
  = Some (v, rest).
Proof.
  intros G1 G2 P. unfold match_at.
  rewrite (expect_lit_app _ _ text_key).
  apply ws_star_gap; auto. cbn [app ws_star expect].
  replace (isWhiteSpace COLON) with false by reflexivity.
  rewrite N.eqb_refl.
  apply ws_star_gap; auto. cbn [ws_star expect].
  replace (isWhiteSpace DQ) with false by reflexivity.
  rewrite N.eqb_refl. now apply (group_raw (length v)).
Qed.

Lemma json_plain v :
  plain v = true -> json_string_chars (v ++ [DQ]) = Some (v, []).
Proof.
  induction v as [|c v IH]; intros P; [reflexivity|].
  cbn [plain forallb] in P. apply andb_prop in P. destruct P as (Pc & P).
  apply andb_prop in Pc. destruct Pc as (Pc & Pl).
  apply andb_prop in Pc. destruct Pc as (Pq & Pb).
  apply negb_true_iff in Pq, Pb.
  cbn [app json_string_chars]. rewrite Pq, Pb.
  replace (N.ltb c 32) with false
    by (symmetry; apply N.ltb_ge; now apply N.leb_le).
  now rewrite (IH P).
Qed.

Section Callback.
Variable St : Type.
Variable onChunk : jsstring -> St -> St.

Lemma emit_decoded m1 (st : St) :
  emit onChunk m1 st = onChunk (decoded m1) st.
Proof.
  unfold emit, decoded. destruct (JSON_parse (DQ :: m1 ++ [DQ])); reflexivity.
Qed.

Lemma scan_loop_fields trail : key_free trail = true ->
  forall fields, Forall (fun f => well_formed f = true) fields ->
  forall fuel pre (st : St),
    length (render fields trail) < fuel ->
    scan_loop onChunk fuel (length pre) (pre ++ render fields trail) st
    = fold_left (fun st f => onChunk (decoded (value f)) st) fields st.
Proof.
  intros T fields W.
  induction W as [|f fields Wf W IH]; intros [|fuel] pre st Hf; try lia.
  - cbn [scan_loop fold_left]. unfold exec.
    rewrite skipn_app, skipn_all, Nat.sub_diag. cbn [skipn app].
    replace (length (pre ++ render [] trail) <? length pre) with false
      by (symmetry; apply Nat.ltb_ge; rewrite length_app; lia).
    unfold render. cbn [map concat app].
    rewrite <- (app_nil_r trail), (key_free_search trail [] T).
    reflexivity.
  - unfold well_formed in Wf.
    apply andb_prop in Wf. destruct Wf as (Wf & Pv).
    apply andb_prop in Wf. destruct Wf as (Wf & G2).
    apply andb_prop in Wf. destruct Wf as (L & G1).
    assert (E : render (f :: fields) trail
                = lead f ++ (text_key ++ gap1 f ++ [COLON] ++ gap2 f
                             ++ DQ :: value f ++ [DQ]
                             ++ render fields trail)).
    { unfold render, render_field. cbn [map concat].
      repeat (rewrite <- ?app_assoc; cbn [app]). reflexivity. }
    cbn [scan_loop fold_left]. unfold exec.
    rewrite skipn_app, skipn_all, Nat.sub_diag. cbn [skipn app].
    replace (length (pre ++ render (f :: fields) trail) <? length pre)
      with false by (symmetry; apply Nat.ltb_ge; rewrite length_app; lia).
    rewrite E at 1. rewrite (key_free_search _ _ L).
    rewrite (search_hit _ _ (match_field _ _ _ _ G1 G2 Pv)).
    rewrite emit_decoded.
    assert (S : pre ++ render (f :: fields) trail
                = (pre ++ render_field f) ++ render fields trail).
    { unfold render. cbn [map concat]. now rewrite <- !app_assoc. }
    assert (Len : length (render (f :: fields) trail)
                  = length (render_field f) + length (render fields trail)).
    { unfold render. cbn [map concat]. now rewrite <- app_assoc, length_app. }
    assert (Pos : 0 < length (render_field f)).
    { unfold render_field, text_key. rewrite !length_app. cbn. lia. }
    replace (length (pre ++ render (f :: fields) trail)
             - length (render fields trail))
      with (length (pre ++ render_field f))
      by (rewrite !length_app, Len; lia).
    rewrite S. apply IH. lia.
Qed.

Lemma scan_fields fields trail (st : St) :
  Forall (fun f => well_formed f = true) fields -> key_free trail = true ->
  scan onChunk (render fields trail) st
  = fold_left (fun st f => onChunk (decoded (value f)) st) fields st.
Proof.
  intros W T. unfold scan.
  apply (scan_loop_fields trail T fields W _ [] st). lia.
Qed.
End Callback.

Lemma record_values fields : forall log,
  fold_left (fun st f => record_chunk (decoded (value f)) st) fields log
  = log ++ map (fun f => decoded (value f)) fields.
Proof.
  induction fields as [|f fields IH]; intros log; cbn.
  - now rewrite app_nil_r.
  - rewrite IH. unfold record_chunk. now rewrite <- app_assoc.
Qed.

(** A plain value is decoded to itself. *)
Lemma decoded_plain v : plain v = true -> decoded v = v.
Proof.
  intros P. unfold decoded, JSON_parse. cbn [skipJSONSpace].
  replace (isJSONSpace DQ) with false by reflexivity.
  rewrite N.eqb_refl, (json_plain v P). reflexivity.
Qed.

(** X2: a body arrives in growths that each hold whole [text] fields:
    the key occurs nowhere but at the fields, with white space at most
    around the colon, and each value is written with its quotes escaped
    and does not end with an escaped backslash.  Then [onChunk] is called
    once per field, in the order of the body, with the string
    [JSON.parse] reads in the value (the value itself when [JSON.parse]
    throws); for a value without quote, backslash or control character
    that string is the value as written. *)
Theorem whole_fields_are_emitted (growths : list (list text_field * jsstring)) :
  Forall whole_fields growths ->
  chunks_of_growths (map (fun g => render (fst g) (snd g)) growths)
  = flat_map (fun g => map (fun f => decoded (value f)) (fst g)) growths
  /\ (forall v, plain v = true -> raw_ok v = true /\ decoded v = v).
Proof.
  intros H. split.
  - rewrite chunks_of_growths_flat.
    induction H as [|g growths (W & T) H IH]; [reflexivity|].
    cbn [map flat_map]. rewrite IH. f_equal.
    rewrite (scan_fields _ record_chunk (fst g) (snd g) [] W T).
    apply (record_values (fst g) []).
  - intros v P. split; [now apply plain_raw|now apply decoded_plain].
Qed.

Lemma whole_fields_are_emitted_witness :
  Forall whole_fields [piece1; piece2; piece3]
  /\ chunks_of_growths
       (map (fun g => render (fst g) (snd g)) [piece1; piece2; piece3])
     = [ lit "Hel"; lit "lo, world";
         lit "say " ++ [DQ] ++ lit "caf" ++ [233%N; DQ; 10%N] ].
Proof.
  assert (H : Forall whole_fields [piece1; piece2; piece3]).
  { repeat constructor. }
  split; [exact H|].
  rewrite (proj1 (whole_fields_are_emitted [piece1; piece2; piece3] H)).
  vm_compute. reflexivity.
Defined.

End EngineMore.

(** ** What the transport can and cannot change *)

Module Transport.

Import Engine EngineFacts Samples.

Section Callback.
Variable St : Type.
Variable onChunk : jsstring -> St -> St.

Lemma dispatch_sent (x : exchange St) e :
  sent (dispatch onChunk x e) = sent x.
Proof.
  destruct e as [t|status|status]; cbn; auto.
  unfold onloadend.
  destruct ((200 <=? status)%Z && (status <? 300)%Z); reflexivity.
Qed.

Lemma events_sent events : forall x : exchange St,
  sent (fold_left (dispatch onChunk) events x) = sent x.
Proof.
  induction events as [|e events IH]; intros x; cbn; auto.
  now rewrite IH, dispatch_sent.
Qed.

(** A settled promise stays as it is. *)
Lemma dispatch_settled (x : exchange St) e :
  promise x <> Pending -> promise (dispatch onChunk x e) = promise x.
Proof.
  intros H. destruct e as [t|status|status]; cbn; auto.
  - destruct (promise x); try contradiction; reflexivity.
  - unfold onloadend.
    destruct ((200 <=? status)%Z && (status <? 300)%Z); cbn;
      destruct (promise x); try contradiction; reflexivity.
Qed.

Lemma events_settled events : forall x : exchange St,
  promise x <> Pending ->
  promise (fold_left (dispatch onChunk) events x) = promise x.
Proof.
  induction events as [|e events IH]; intros x H; cbn; auto.
  rewrite IH; rewrite dispatch_settled; auto.
Qed.

(** The end of the exchange settles the promise. *)
Lemma ending_settles (x : exchange St) e :
  (forall t, e <> progress t) -> promise (dispatch onChunk x e) <> Pending.
Proof.
  intros H. destruct e as [t|status|status]; cbn.
  - now destruct (H t).
  - destruct (promise x); discriminate.
  - unfold onloadend.
    destruct ((200 <=? status)%Z && (status <? 300)%Z); cbn;
      destruct (promise x); discriminate.
Qed.

Lemma events_settle events : forall x : exchange St,
  (exists e, In e events /\ forall t, e <> progress t) ->
  promise (fold_left (dispatch onChunk) events x) <> Pending.
Proof.
  induction events as [|e events IH]; intros x (e0 & Hin & He0).
  - destruct Hin.
  - cbn [fold_left]. destruct Hin as [<-|Hin].
    + rewrite events_settled; now apply ending_settles.
    + apply IH. now exists e0.
Qed.
End Callback.

(** X3: with a key configured, when the transport reports a network
    error, whatever was received before and whatever status [loadend]
    then sees (a 2xx status too), and whatever comes after, the promise
    is rejected with the network message of [onerror], and [onChunk] has
    been called once more than for the text received, with the error
    text. *)
Theorem network_error_decides (St : Type) (onChunk : jsstring -> St -> St)
    (c : char16) (key modelId : jsstring) (history : list GeminiContent)
    (texts : list jsstring) (status_at_error status_at_end : Z)
    (later : list xhr_event) (st : St) :
  let errorMsg :=
    lit "Network request failed. Status: "
    ++ Number_toString status_at_error in
  let received :=
    run onChunk (Some (c :: key)) modelId history (map progress texts) st in
  let x :=
    run onChunk (Some (c :: key)) modelId history
      (map progress texts
       ++ [error status_at_error; loadend status_at_end]) st in
  client x
  = onChunk ([10; 10]%N ++ lit "**Error:** " ++ errorMsg) (client received)
  /\ promise x = Rejected errorMsg
  /\ promise (run onChunk (Some (c :: key)) modelId history
                (map progress texts
                 ++ [error status_at_error; loadend status_at_end]
                 ++ later) st)
     = Rejected errorMsg.
Proof.
  cbn zeta. unfold run. cbn [streamGeminiResponse sent].
  rewrite !fold_left_app. cbn [fold_left].
  set (x0 := fold_left (dispatch onChunk) (map progress texts) _).
  assert (P0 : promise x0 = Pending).
  { subst x0.
    now rewrite (proj1 (Completion.progress_keeps_promise _ onChunk texts _)). }
  assert (P1 : promise (dispatch onChunk x0 (error status_at_error))
               = Rejected (lit "Network request failed. Status: "
                           ++ Number_toString status_at_error)).
  { cbn. now rewrite P0. }
  split; [|split].
  - cbn [dispatch]. rewrite Completion.onloadend_client. reflexivity.
  - rewrite dispatch_settled; rewrite P1; [reflexivity|discriminate].
  - rewrite events_settled; rewrite dispatch_settled; rewrite P1;
      try reflexivity; discriminate.
Qed.

(** X4: with a key configured, one request is sent, a POST to the
    address made of the model id and the key, with a JSON content type and
    the given context as its contents; whatever the transport then
    delivers, no other request is sent. *)
Theorem one_request_is_sent (St : Type) (onChunk : jsstring -> St -> St)
    (c : char16) (key modelId : jsstring) (history : list GeminiContent)
    (events : list xhr_event) (st : St) :
  sent (run onChunk (Some (c :: key)) modelId history events st)
  = [ {| method := lit "POST";
         url := lit "https://generativelanguage.googleapis.com/v1beta/models/"
                ++ modelId ++ lit ":streamGenerateContent?key=" ++ c :: key;
         headers := [(lit "Content-Type", lit "application/json")];
         contents := history |} ].
Proof.
  unfold run. cbn [streamGeminiResponse sent].
  now rewrite events_sent.
Qed.

End Transport.

(** ** A whole send *)

Module SendFacts.

Import Store Controller JSFacts EngineFacts ControllerFacts StoreFacts.
Import Transport Screen Samples MoreSamples.
Local Open Scope nat_scope.

Lemma last_elem_split {A : Type} (l : list A) (x : A) :
  last_elem l = Some x -> l = slice_init l ++ [x].
Proof.
  intros E. destruct l as [|h t]; [discriminate|].
  destruct (@exists_last _ (h :: t)) as (l' & y & Hl); [discriminate|].
  rewrite Hl in *. rewrite last_elem_snoc in E.
  rewrite slice_init_snoc. congruence.
Qed.

(** The per-session function of [onChunk]. *)
Lemma onChunk_nil a prev : onChunk a [] prev = prev.
Proof.
  unfold onChunk. rewrite <- (map_id prev) at 2. apply map_ext.
  intros [i ms]. cbn [id messages].
  destruct (streq i a); [|reflexivity].
  destruct (last_elem ms) as [[mi t u]|] eqn:L; [|reflexivity].
  cbn [msg_id text isFromUser]. rewrite app_nil_r.
  now rewrite <- (last_elem_split ms _ L).
Qed.

Lemma onChunk_twice a c1 c2 prev :
  onChunk a c2 (onChunk a c1 prev) = onChunk a (c1 ++ c2) prev.
Proof.
  unfold onChunk. rewrite map_map. apply map_ext.
  intros [i ms]. cbn [id messages].
  destruct (streq i a) eqn:E; cbn [id]; rewrite ?E; [|reflexivity].
  destruct (last_elem ms) as [m|] eqn:L; cbn [id messages]; rewrite E.
  - rewrite last_elem_snoc, slice_init_snoc.
    cbn [msg_id text isFromUser]. now rewrite app_assoc.
  - now rewrite L.
Qed.

Lemma replay_onChunk a log : forall prev,
  Engine.replay (onChunk a) log prev = onChunk a (concat log) prev.
Proof.
  induction log as [|c log IH]; intros prev; cbn.
  - now rewrite onChunk_nil.
  - unfold Engine.replay in IH. now rewrite IH, onChunk_twice.
Qed.

(** The state a send that goes through ends in. *)
Lemma send_final key now1 now2 events st a s :
  returns_early st = false ->
  activeSessionId st = Some a -> activeSession st = Some s ->
  let userMessage :=
    {| msg_id := Number_toString now1; text := inputText st;
       isFromUser := true |} in
  let aiMessagePlaceholder :=
    {| msg_id := Number_toString (now2 + 1); text := [];
       isFromUser := false |} in
  let recorded :=
    Engine.run Engine.record_chunk key (selectedModel st)
      (build_history s (inputText st)) events [] in
  sessions (final (handleSendMessage key now1 now2 events st))
  = onChunk a (concat (Engine.client recorded))
      (append_pair a userMessage aiMessagePlaceholder (sessions st))
  /\ activeSessionId (final (handleSendMessage key now1 now2 events st))
     = Some a
  /\ selectedModel (final (handleSendMessage key now1 now2 events st))
     = selectedModel st
  /\ inputText (final (handleSendMessage key now1 now2 events st)) = []
  /\ isLoading (final (handleSendMessage key now1 now2 events st))
     = match Engine.promise recorded with
       | Engine.Pending => true
       | _ => false
       end.
Proof.
  intros R A S. cbn zeta.
  unfold handleSendMessage, start_send. rewrite R, A, S.
  unfold call_engine. cbn [Controller.target context after_append final call_exchange].
  destruct (run_mirrors _ (onChunk a) key (selectedModel st)
              (build_history s (inputText st)) events
              (sessions
                 (setIsLoading true
                    (setInputText []
                       (setSessions
                          (append_pair a
                             {| msg_id := Number_toString now1;
                                text := inputText st; isFromUser := true |}
                             {| msg_id := Number_toString (now2 + 1);
                                text := []; isFromUser := false |}
                             (sessions st)) st)))))
    as (Hc & Hp & _).
  unfold setIsLoading, setInputText, setSessions in *.
  cbn [sessions activeSessionId selectedModel inputText isLoading] in *.
  rewrite Hc, Hp, replay_onChunk. repeat split; auto.
Qed.

(** The first session with the target id, after the pair is appended and
    a chunk is folded in. *)
Lemma find_target a um ph c l s :
  find (fun x => streq a (id x)) l = Some s -> id s = a ->
  find (fun x => streq a (id x)) (onChunk a c (append_pair a um ph l))
  = Some {| id := id s;
            messages :=
              messages s
              ++ [ um;
                   {| msg_id := msg_id ph; text := text ph ++ c;
                      isFromUser := isFromUser ph |} ] |}.
Proof.
  intros S Hid. unfold onChunk, append_pair.
  rewrite !find_map_same;
    try (intros x; destruct (streq (id x) a) eqn:E; cbn [id]; try reflexivity;
         destruct (last_elem _); reflexivity).
  rewrite S. cbn [option_map id messages]. rewrite Hid, streq_refl.
  cbn [id messages]. rewrite streq_refl.
  change (messages s ++ [um; ph]) with (messages s ++ [um] ++ [ph]).
  rewrite app_assoc, last_elem_snoc, slice_init_snoc, <- app_assoc.
  reflexivity.
Qed.

(** X7: folding chunks one at a time is folding their concatenation
    once: [onChunk] with one chunk and then another is [onChunk] with the
    first followed by the second, [onChunk] with the empty chunk changes
    nothing, and so a list of chunks leaves the collection that its
    concatenation leaves. *)
Theorem chunks_fold_as_their_concatenation (a : jsstring)
    (c1 c2 : jsstring) (log : list jsstring) (prev : list ChatSession) :
  onChunk a c2 (onChunk a c1 prev) = onChunk a (c1 ++ c2) prev
  /\ onChunk a [] prev = prev
  /\ fold_left (fun sessions chunk => onChunk a chunk sessions) log prev
     = onChunk a (concat log) prev.
Proof.
  split; [apply onChunk_twice|]. split; [apply onChunk_nil|].
  apply (replay_onChunk a log prev).
Qed.

End SendFacts.

(** ** The screen as a whole *)

Module ScreenFacts.

Import Store Controller JSFacts EngineFacts ControllerFacts StoreFacts.
Import Transport SendFacts Screen Samples MoreSamples.
Local Open Scope nat_scope.

(** The state a send ends in when the guard stops it. *)
Lemma send_stopped key now1 now2 events st :
  returns_early st = true ->
  handleSendMessage key now1 now2 events st
  = {| final := st; invoked := None; requests := [] |}.
Proof.
  intros R. unfold handleSendMessage, start_send. now rewrite R.
Qed.

Lemma onChunk_ids a c prev : ids (onChunk a c prev) = ids prev.
Proof.
  unfold ids, onChunk. rewrite map_map. apply map_ext. intros s.
  destruct (streq (id s) a); [|reflexivity].
  destruct (last_elem (messages s)); reflexivity.
Qed.

Lemma append_pair_ids a um ph prev : ids (append_pair a um ph prev) = ids prev.
Proof.
  unfold ids, append_pair. rewrite map_map. apply map_ext. intros s.
  destruct (streq (id s) a); reflexivity.
Qed.

(** A send keeps the ids, the active id and the model. *)
Lemma send_ids key now1 now2 events st :
  ids (sessions (final (handleSendMessage key now1 now2 events st)))
  = ids (sessions st)
  /\ activeSessionId (final (handleSendMessage key now1 now2 events st))
     = activeSessionId st
  /\ selectedModel (final (handleSendMessage key now1 now2 events st))
     = selectedModel st.
Proof.
  destruct (returns_early st) eqn:R.
  - rewrite (send_stopped key now1 now2 events st R). repeat split.
  - destruct (returns_early_false st R) as (_ & _ & a & s0 & A & S & _).
    destruct (send_final key now1 now2 events st a s0 R A S)
      as (Hs & Ha & Hm & _).
    rewrite Hs, Ha, Hm, onChunk_ids, append_pair_ids. repeat split; auto.
Qed.

(** X8: a send never removes, reorders or renames a session, never moves
    the active id or the model, and never changes a message that was
    there: after [handleSendMessage], whatever it was given, every session
    is at its place with its id and with its earlier messages, followed
    by the messages the send added, if any. *)
Theorem send_only_appends (key : option jsstring) (now1 now2 : Z)
    (events : list Engine.xhr_event) (st : State) :
  let st' := final (handleSendMessage key now1 now2 events st) in
  ids (sessions st') = ids (sessions st)
  /\ activeSessionId st' = activeSessionId st
  /\ selectedModel st' = selectedModel st
  /\ forall i s, nth_error (sessions st) i = Some s ->
       exists added,
         nth_error (sessions st') i
         = Some {| id := id s; messages := messages s ++ added |}.
Proof.
  cbn zeta.
  destruct (send_ids key now1 now2 events st) as (Hi & Ha & Hm).
  split; [exact Hi|]. split; [exact Ha|]. split; [exact Hm|].
  destruct (returns_early st) eqn:R.
  - rewrite (send_stopped key now1 now2 events st R). cbn [final].
    intros i [si ms] H. exists []. now rewrite app_nil_r.
  - destruct (returns_early_false st R) as (_ & _ & a & s0 & A & S & _).
    destruct (send_final key now1 now2 events st a s0 R A S) as (Hs & _).
    rewrite Hs.
    intros i [si ms] H. unfold onChunk, append_pair.
    rewrite !nth_error_map, H. cbn [option_map id messages].
    destruct (streq si a) eqn:E; cbn [id messages]; rewrite E.
    + change (ms ++ [?u; ?p]) with (ms ++ [u] ++ [p]).
      rewrite app_assoc, last_elem_snoc, slice_init_snoc, <- app_assoc.
      eexists. reflexivity.
    + exists []. now rewrite app_nil_r.
Qed.

Lemma consistent_ids st :
  consistent st
  <-> sessions st <> []
      /\ exists a, activeSessionId st = Some a /\ In a (ids (sessions st)).
Proof.
  unfold consistent, ids. split; intros (Hne & H); (split; [exact Hne|]).
  - destruct H as (s & Hin & Ha). exists (id s). split; auto.
    now apply in_map.
  - destruct H as (a & Ha & Hin). apply in_map_iff in Hin.
    destruct Hin as (s & <- & Hin). now exists s.
Qed.

Lemma send_consistent key now1 now2 events st :
  consistent st ->
  consistent (final (handleSendMessage key now1 now2 events st)).
Proof.
  intros H. apply consistent_ids in H. destruct H as (Hne & a & Ha & Hin).
  destruct (send_ids key now1 now2 events st) as (Hi & Hact & _).
  apply consistent_ids. rewrite Hi, Hact. split; [|now exists a].
  intros E. rewrite E in Hi. destruct (sessions st); [auto|discriminate].
Qed.

Lemma apply_press_consistent key st p :
  consistent st -> consistent (apply_press key st p).
Proof.
  intros H. destruct p as [now|i|now i|s|now1 now2 events]; cbn.
  - apply createNewChat_consistent.
  - destruct (nth_error (sessions st) i) as [item|] eqn:E; [|exact H].
    destruct H as (Hne & _). split; [exact Hne|].
    exists item. split; [|reflexivity]. cbn. eapply nth_error_In; eauto.
  - destruct (nth_error (sessions st) i) as [item|]; [|exact H].
    now apply deleteSession_consistent.
  - exact H.
  - now apply send_consistent.
Qed.

(** X9: once [loadHistory] has run, whatever the storage held, after
    every sequence of uses of the screen (new chat, a row of the drawer,
    the delete button of a row, typing or dictating, sending, each with
    whatever the clock reads and the transport delivers) the collection
    is not empty and the active id is the id of one of its sessions, so
    that [activeSession] is defined. *)
Theorem screen_stays_consistent (key : option jsstring) (now0 : Z)
    (storedHistory : stored) (presses : list press) :
  let st :=
    apply_presses key presses (loadHistory now0 storedHistory initial) in
  sessions st <> []
  /\ (exists s, In s (sessions st) /\ activeSessionId st = Some (id s))
  /\ activeSession st <> None.
Proof.
  cbn zeta.
  assert (H : consistent
                (apply_presses key presses
                   (loadHistory now0 storedHistory initial))).
  { unfold apply_presses.
    generalize (loadHistory_consistent now0 storedHistory initial).
    generalize (loadHistory now0 storedHistory initial).
    induction presses as [|p presses IH]; intros st H; cbn; auto.
    apply IH. now apply apply_press_consistent. }
  destruct H as (Hne & s & Hin & Hact).
  split; [exact Hne|]. split; [now exists s|].
  unfold activeSession. intros E. apply (find_none _ _ E) in Hin.
  unfold is_active in Hin. rewrite Hact, streq_refl in Hin. discriminate.
Qed.

End ScreenFacts.

(** ** When a send goes through, and when it ends *)

Module SendGuard.

Import Store Controller JSFacts EngineFacts ControllerFacts StoreFacts.
Import Transport SendFacts ScreenFacts Screen Samples MoreSamples.
Local Open Scope nat_scope.

Lemma trimStart_nil s :
  trimStart s = [] <-> forallb isWhiteSpace s = true.
Proof.
  induction s as [|c s IH]; cbn; [tauto|].
  destruct (isWhiteSpace c); cbn; [exact IH|].
  split; discriminate.
Qed.

Lemma trimStart_head s c t :
  trimStart s = c :: t -> isWhiteSpace c = false.
Proof.
  induction s as [|d s IH]; cbn; [discriminate|].
  destruct (isWhiteSpace d) eqn:E; [exact IH|].
  intros H. injection H as -> _. exact E.
Qed.

Lemma forallb_rev {A : Type} (f : A -> bool) (l : list A) :
  forallb f (rev l) = forallb f l.
Proof.
  destruct (forallb f l) eqn:E.
  - apply forallb_forall. intros x Hx. apply in_rev in Hx.
    now apply (proj1 (forallb_forall f l) E).
  - destruct (forallb f (rev l)) eqn:E'; [|reflexivity].
    rewrite <- E. symmetry. apply forallb_forall. intros x Hx.
    apply in_rev in Hx. now apply (proj1 (forallb_forall f (rev l)) E').
Qed.

(** [s.trim()] is empty exactly when [s] is white space only. *)
Lemma trim_nil s : trim s = [] <-> forallb isWhiteSpace s = true.
Proof.
  unfold trim, trimEnd. split.
  - intros H. apply (f_equal (@rev _)) in H. rewrite rev_involutive in H.
    cbn in H. apply trimStart_nil in H. rewrite forallb_rev in H.
    destruct (trimStart s) as [|c t] eqn:E.
    + now apply trimStart_nil.
    + apply trimStart_head in E. cbn in H. rewrite E in H. discriminate.
  - intros H. apply trimStart_nil in H. now rewrite H.
Qed.

(** The guard lets a send through exactly in these conditions. *)
Lemma guard_passes st :
  returns_early st = false
  <-> forallb isWhiteSpace (inputText st) = false
      /\ isLoading st = false
      /\ falsy (activeSessionId st) = false
      /\ activeSession st <> None.
Proof.
  split.
  - intros R. unfold returns_early in R.
    apply orb_false_iff in R. destruct R as (R & Hs).
    apply orb_false_iff in R. destruct R as (R & Hf).
    apply orb_false_iff in R. destruct R as (Ht & Hl).
    repeat split; auto.
    + apply streq_false in Ht.
      destruct (forallb isWhiteSpace (inputText st)) eqn:E; auto.
      apply trim_nil in E. contradiction.
    + destruct (activeSession st); [discriminate|discriminate].
  - intros (Ht & Hl & Hf & Hs).
    unfold returns_early. rewrite Hl, Hf.
    destruct (activeSession st); [|contradiction].
    replace (streq (trim (inputText st)) []) with false; [reflexivity|].
    symmetry. apply streq_false. intros E. apply trim_nil in E.
    congruence.
Qed.

(** X10: [handleSendMessage] goes through exactly when the input holds a
    code unit that is not white space, no send is in flight, the active
    id is a string that is not empty, and it is the id of a session.
    With a key configured, these are the conditions in which a request is
    sent, and the request goes to the address of the selected model; with
    any key or none, these are the conditions in which the handler
    changes the state at all. *)
Theorem send_goes_through_exactly_when (c : char16) (key : jsstring)
    (any_key : option jsstring)
    (now1 now2 : Z) (events : list Engine.xhr_event) (st : State) :
  let sent := requests (handleSendMessage (Some (c :: key)) now1 now2
                          events st) in
  (sent <> []
   <-> forallb isWhiteSpace (inputText st) = false
       /\ isLoading st = false
       /\ falsy (activeSessionId st) = false
       /\ activeSession st <> None)
  /\ (forall req, In req sent ->
        Engine.url req
        = lit "https://generativelanguage.googleapis.com/v1beta/models/"
          ++ selectedModel st ++ lit ":streamGenerateContent?key="
          ++ c :: key)
  /\ (final (handleSendMessage any_key now1 now2 events st) <> st
      <-> forallb isWhiteSpace (inputText st) = false
          /\ isLoading st = false
          /\ falsy (activeSessionId st) = false
          /\ activeSession st <> None).
Proof.
  cbn zeta. rewrite <- guard_passes.
  destruct (returns_early st) eqn:R.
  - rewrite !(send_stopped _ now1 now2 events st R). cbn [requests final].
    split; [|split].
    + split; [intros H; now destruct H|discriminate].
    + intros req [].
    + split; [intros H; now destruct H|discriminate].
  - destruct (returns_early_false st R) as (T & _ & a & s & A & S & _).
    assert (Q : requests (handleSendMessage (Some (c :: key)) now1 now2
                            events st)
                = [ {| Engine.method := lit "POST";
                       Engine.url :=
                         Engine.API_URL (selectedModel st) (c :: key);
                       Engine.headers :=
                         [(lit "Content-Type", lit "application/json")];
                       Engine.contents := build_history s (inputText st) |} ]).
    { unfold handleSendMessage, start_send. rewrite R, A, S.
      unfold call_engine.
      cbn [requests call_exchange context Controller.target after_append].
      apply run_sends_once. }
    rewrite Q. split; [|split].
    + split; [reflexivity|discriminate].
    + intros req [<-|[]]. reflexivity.
    + split; [reflexivity|]. intros _ E.
      destruct (send_final any_key now1 now2 events st a s R A S)
        as (_ & _ & _ & Hi & _).
      rewrite E in Hi. rewrite Hi in T. now apply T.
Qed.

Lemma only_progress (St : Type) (onChunk : jsstring -> St -> St) events :
  forall x : Engine.exchange St,
  (forall e, In e events -> exists t, e = Engine.progress t) ->
  Engine.promise (fold_left (Engine.dispatch onChunk) events x)
  = Engine.promise x.
Proof.
  induction events as [|e events IH]; intros x H; cbn; auto.
  rewrite IH; [|intros e' He'; apply H; now right].
  destruct (H e (or_introl eq_refl)) as (t & ->). reflexivity.
Qed.

Lemma ends_or_not (events : list Engine.xhr_event) :
  (exists e, In e events /\ forall t, e <> Engine.progress t)
  \/ (forall e, In e events -> exists t, e = Engine.progress t).
Proof.
  induction events as [|e events [(e0 & Hin & H)|IH]].
  - right. intros e [].
  - left. exists e0. split; [now right|exact H].
  - destruct e as [t|status|status].
    + right. intros e [<-|He]; [now exists t|now apply IH].
    + left. eexists. split; [left; reflexivity|discriminate].
    + left. eexists. split; [left; reflexivity|discriminate].
Qed.

End SendGuard.

(** ** Storage, the drawer and the clock *)

Module History.

Import Store Controller JSFacts EngineFacts ControllerFacts StoreFacts.
Import SessionIds SendFacts ScreenFacts SendGuard Screen Clock.
Import Samples MoreSamples.
Local Open Scope nat_scope.

(** X12: what [saveHistory] writes, [loadHistory] reads back as it is
    and makes its front session active, without a new session and
    whatever the clock reads: the collection after the reload is the
    first [MAX_HISTORY_LENGTH] sessions of the collection saved, which is
    the whole of it when it has no more than that. *)
Theorem saved_history_loads_back (sessions0 : list ChatSession)
    (now : Z) (st : State) :
  sessions0 <> [] ->
  exists historyToSave,
    saveHistory sessions0 = Some (CHAT_HISTORY_KEY, historyToSave)
    /\ sessions (loadHistory now (Parsed historyToSave) st)
       = firstn MAX_HISTORY_LENGTH sessions0
    /\ (length sessions0 <= MAX_HISTORY_LENGTH ->
        sessions (loadHistory now (Parsed historyToSave) st) = sessions0)
    /\ activeSessionId (loadHistory now (Parsed historyToSave) st)
       = option_map id (hd_error sessions0).
Proof.
  intros H. destruct sessions0 as [|s0 l]; [contradiction|].
  exists (firstn MAX_HISTORY_LENGTH (s0 :: l)). split; [reflexivity|].
  change MAX_HISTORY_LENGTH with (S 99). rewrite firstn_cons.
  unfold loadHistory, setActiveSessionId, setSessions.
  cbn [sessions activeSessionId hd_error option_map].
  split; [reflexivity|]. split; [|reflexivity].
  intros L. f_equal. apply firstn_all2. cbn [length] in L. lia.
Qed.

Lemma saved_history_loads_back_witness :
  sessions two_sessions <> []
  /\ exists historyToSave,
       saveHistory (sessions two_sessions)
       = Some (CHAT_HISTORY_KEY, historyToSave)
       /\ sessions (loadHistory 0 (Parsed historyToSave) initial)
          = sessions two_sessions
       /\ activeSessionId (loadHistory 0 (Parsed historyToSave) initial)
          = Some (lit "2").
Proof.
  assert (H : sessions two_sessions <> []) by discriminate.
  split; [exact H|].
  destruct (saved_history_loads_back (sessions two_sessions) 0 initial H)
    as (h & Hs & _ & Hl & Ha).
  exists h. split; [exact Hs|]. split; [|exact Ha].
  apply Hl. unfold MAX_HISTORY_LENGTH. cbn [sessions two_sessions length]. lia.
Defined.

(** X13: while a reply is streaming, nothing is written to storage; once
    the send has ended, the effect writes the collection that holds the
    reply, cut to its first [MAX_HISTORY_LENGTH] sessions. *)
Theorem history_is_saved_after_the_reply (key : option jsstring)
    (now1 now2 : Z) (events : list Engine.xhr_event) (st : State)
    (b : started) :
  start_send now1 now2 st = Some b ->
  let st' := final (handleSendMessage key now1 now2 events st) in
  save_effect (after_append b) = None
  /\ (isLoading st' = true -> save_effect st' = None)
  /\ (isLoading st' = false ->
      save_effect st'
      = Some (CHAT_HISTORY_KEY, firstn MAX_HISTORY_LENGTH (sessions st'))).
Proof.
  intros B. cbn zeta.
  assert (R : returns_early st = false).
  { unfold start_send in B. destruct (returns_early st); congruence. }
  split; [|split].
  - unfold start_send in B. rewrite R in B.
    destruct (activeSessionId st); [|discriminate].
    destruct (activeSession st); [|discriminate].
    injection B as <-. reflexivity.
  - intros L. unfold save_effect. now rewrite L.
  - intros L. unfold save_effect. rewrite L. cbn [negb].
    destruct (returns_early_false st R) as (_ & _ & a & s & A & S & _).
    destruct (send_ids key now1 now2 events st) as (Hi & _).
    unfold saveHistory.
    destruct (sessions (final (handleSendMessage key now1 now2 events st)))
      eqn:E; [|reflexivity].
    unfold activeSession in S. apply find_some in S. destruct S as (S & _).
    cbn in Hi. destruct (sessions st); [destruct S|discriminate].
Qed.

Lemma history_is_saved_after_the_reply_witness :
  exists b,
    start_send 100 100 fresh_chat = Some b
    /\ save_effect (after_append b) = None
    /\ save_effect
         (final (handleSendMessage a_key 100 100 hello_events fresh_chat))
       = Some (CHAT_HISTORY_KEY,
               firstn MAX_HISTORY_LENGTH
                 (sessions
                    (final (handleSendMessage a_key 100 100 hello_events
                              fresh_chat)))).
Proof.
  eexists. split; [reflexivity|].
  destruct (history_is_saved_after_the_reply a_key 100 100 hello_events
              fresh_chat _ eq_refl) as (H1 & _ & H3).
  split; [exact H1|]. apply H3. reflexivity.
Defined.

(** X14: the label of a row of the drawer is never empty.  After the
    first send in a session without messages, the label of that session
    is the text the user sent. *)
Theorem first_message_names_the_chat (key : option jsstring)
    (now1 now2 : Z) (events : list Engine.xhr_event) (st : State)
    (s : ChatSession) :
  returns_early st = false ->
  activeSession st = Some s ->
  messages s = [] ->
  (forall item, title item <> [])
  /\ option_map title
       (activeSession (final (handleSendMessage key now1 now2 events st)))
     = Some (inputText st).
Proof.
  intros R S M. split.
  - intros [i [|[mi [|c t] u] ms]]; cbn; discriminate.
  - destruct (returns_early_false st R) as (T & _ & a & s' & A & S' & Hid).
    assert (s' = s) by congruence. subst s'.
    destruct (send_final key now1 now2 events st a s R A S)
      as (Hs & Ha & _).
    unfold activeSession at 1, is_active. rewrite Hs, Ha.
    unfold activeSession, is_active in S. rewrite A in S.
    rewrite (find_target a _ _ _ _ s S Hid), M. cbn.
    destruct (inputText st); [|reflexivity].
    now destruct T.
Qed.

Lemma first_message_names_the_chat_witness :
  returns_early fresh_chat = false
  /\ option_map title
       (activeSession
          (final (handleSendMessage a_key 100 100 hello_events fresh_chat)))
     = Some (lit "What is Rocq?").
Proof.
  split; [reflexivity|].
  apply (first_message_names_the_chat a_key 100 100 hello_events fresh_chat
           {| id := lit "3"; messages := [] |}); reflexivity.
Defined.

End History.

(** ** Creating, deleting, and the clock *)

Module Sessions.

Import Store JSFacts StoreFacts SessionIds Clock Samples MoreSamples.
Local Open Scope nat_scope.

Lemma filter_absent sessionId l :
  ~ In sessionId (ids l) ->
  filter (fun s => negb (streq (id s) sessionId)) l = l.
Proof.
  induction l as [|s l IH]; cbn; intros H; [reflexivity|].
  replace (streq (id s) sessionId) with false
    by (symmetry; apply streq_false; intros E; apply H; now left).
  cbn. f_equal. apply IH. intros Hin. apply H. now right.
Qed.

(** X15: a new chat that is deleted at once leaves the collection as it
    was before the chat was made, with its front session active, provided
    the collection held a session and the id of the new chat was not
    already the id of one. *)
Theorem new_chat_then_delete (now now' : Z) (st : State) :
  sessions st <> [] ->
  ~ In (Number_toString now) (ids (sessions st)) ->
  let st' :=
    deleteSession now' (Number_toString now) (createNewChat now st) in
  sessions st' = sessions st
  /\ activeSessionId st' = option_map id (hd_error (sessions st)).
Proof.
  intros Hne Hfresh. cbn zeta. unfold deleteSession, createNewChat.
  unfold is_active, setIsDrawerVisible, setActiveSessionId, setSessions.
  cbn [sessions activeSessionId id filter].
  rewrite streq_refl. cbn [negb]. rewrite (filter_absent _ _ Hfresh).
  destruct (sessions st) as [|s0 l]; [contradiction|].
  cbn. split; reflexivity.
Qed.

Lemma new_chat_then_delete_witness :
  sessions two_sessions <> []
  /\ ~ In (Number_toString 3) (ids (sessions two_sessions))
  /\ sessions (deleteSession 4 (Number_toString 3)
                 (createNewChat 3 two_sessions))
     = sessions two_sessions.
Proof.
  assert (H1 : sessions two_sessions <> []) by discriminate.
  assert (H2 : ~ In (Number_toString 3) (ids (sessions two_sessions))).
  { cbn. intros [H|[H|[]]]; discriminate. }
  split; [exact H1|]. split; [exact H2|].
  apply (new_chat_then_delete 3 4 two_sessions H1 H2).
Defined.

(** X16: deleting an id that no session has changes nothing, in a state
    where the collection holds the active session. *)
Theorem deleting_an_unknown_id_is_a_no_op (now : Z) (sessionId : jsstring)
    (st : State) :
  consistent st ->
  ~ In sessionId (ids (sessions st)) ->
  deleteSession now sessionId st = st.
Proof.
  intros (_ & s & Hin & Hact) Habs. unfold deleteSession.
  rewrite (filter_absent _ _ Habs).
  replace (is_active st sessionId) with false.
  - destruct st; reflexivity.
  - symmetry. unfold is_active. rewrite Hact. apply streq_false.
    intros E. apply Habs. rewrite <- E. unfold ids. now apply in_map.
Qed.

Lemma deleting_an_unknown_id_is_a_no_op_witness :
  consistent two_sessions
  /\ ~ In (lit "9") (ids (sessions two_sessions))
  /\ deleteSession 4 (lit "9") two_sessions = two_sessions.
Proof.
  assert (H1 : consistent two_sessions).
  { split; [discriminate|]. eexists. split; [left; reflexivity|reflexivity]. }
  assert (H2 : ~ In (lit "9") (ids (sessions two_sessions))).
  { cbn. intros [H|[H|[]]]; discriminate. }
  split; [exact H1|]. split; [exact H2|].
  apply (deleting_an_unknown_id_is_a_no_op 4 (lit "9") two_sessions H1 H2).
Defined.

Lemma deleteSession_ids now sessionId st i :
  In i (ids (sessions (deleteSession now sessionId st))) ->
  In i (ids (sessions st)) \/ i = Number_toString now.
Proof.
  assert (F : forall l, In i (ids (filter
                 (fun s => negb (streq (id s) sessionId)) l)) ->
               In i (ids l)).
  { intros l H. unfold ids in *. apply in_map_iff in H.
    destruct H as (s & E & H). apply filter_In in H.
    apply in_map_iff. exists s. tauto. }
  unfold deleteSession. destruct (is_active st sessionId).
  - destruct (filter _ (sessions st)) as [|s0 rest] eqn:E.
    + cbn. intros [H|[]]. now right.
    + cbn [sessions setActiveSessionId setSessions]. intros H. left.
      apply F. now rewrite E.
  - cbn [sessions setSessions]. intros H. left. now apply F.
Qed.

Lemma advance_step t o st :
  NoDup (ids (sessions st)) -> ids_before t st -> (t <= reading o)%Z ->
  NoDup (ids (sessions (apply_op st o)))
  /\ ids_before (reading o + 1) (apply_op st o).
Proof.
  intros N B T. destruct o as [now|now sessionId]; cbn [apply_op reading] in *.
  - split.
    + rewrite createNewChat_ids. constructor; [|exact N].
      intros Hin. destruct (B _ Hin) as (r & Hr & E).
      apply Number_toString_inj in E. lia.
    + intros i. rewrite createNewChat_ids. intros [<-|Hin].
      * exists now. split; [lia|reflexivity].
      * destruct (B _ Hin) as (r & Hr & E). exists r. split; [lia|exact E].
  - split; [now apply deleteSession_NoDup|].
    intros i Hin. apply deleteSession_ids in Hin. destruct Hin as [Hin| ->].
    + destruct (B _ Hin) as (r & Hr & E). exists r. split; [lia|exact E].
    + exists now. split; [lia|reflexivity].
Qed.

(** X17: when the clock moves forward between operations, the ids stay
    pairwise distinct.  From a collection with pairwise distinct ids that
    are the strings of clock readings before [t], along every sequence of
    [createNewChat] and [deleteSession] whose readings start at [t] or
    later and each come after the one before, the ids of the collection
    are pairwise distinct. *)
Theorem ids_distinct_when_clock_advances (t : Z) (ops : list op)
    (st : State) :
  NoDup (ids (sessions st)) ->
  ids_before t st ->
  advances t ops ->
  NoDup (ids (sessions (apply_ops ops st))).
Proof.
  revert t st. induction ops as [|o ops IH]; intros t st N B A; cbn; auto.
  destruct A as (T & A).
  destruct (advance_step t o st N B T) as (N' & B').
  apply (IH (reading o + 1)%Z); auto.
Qed.

Lemma ids_distinct_when_clock_advances_witness :
  let st := loadHistory 1 Absent initial in
  let ops := [Create 2; Create 5; Delete 7 (lit "5"); Delete 8 (lit "1")] in
  NoDup (ids (sessions st))
  /\ ids_before 2 st
  /\ advances 2 ops
  /\ NoDup (ids (sessions (apply_ops ops st))).
Proof.
  intros st ops.
  assert (N : NoDup (ids (sessions st)))
    by (cbn; constructor; [intros []|constructor]).
  assert (B : ids_before 2 st).
  { intros i [<-|[]]. exists 1%Z. split; [lia|reflexivity]. }
  assert (A : advances 2 ops) by (cbn; lia).
  split; [exact N|]. split; [exact B|]. split; [exact A|].
  exact (ids_distinct_when_clock_advances 2 ops st N B A).
Defined.

End Sessions.

(** ** A send among other handlers *)

Module Interleaving.

Import Store Controller JSFacts EngineFacts ControllerFacts StoreFacts.
Import EngineMore Transport SendFacts ScreenFacts SendGuard Live.
Import Samples MoreSamples.
Local Open Scope nat_scope.

(** The engine that records, with and without what it has recorded. *)
Lemma dispatch_record_log (y : Engine.exchange (list jsstring)) e :
  let y0 := {| Engine.client := [];
               Engine.promise := Engine.promise y;
               Engine.sent := Engine.sent y;
               Engine.lastResponseLength := Engine.lastResponseLength y |} in
  Engine.client (Engine.dispatch Engine.record_chunk y e)
  = Engine.client y
    ++ Engine.client (Engine.dispatch Engine.record_chunk y0 e)
  /\ Engine.promise (Engine.dispatch Engine.record_chunk y e)
     = Engine.promise (Engine.dispatch Engine.record_chunk y0 e)
  /\ Engine.sent (Engine.dispatch Engine.record_chunk y e)
     = Engine.sent (Engine.dispatch Engine.record_chunk y0 e)
  /\ Engine.lastResponseLength (Engine.dispatch Engine.record_chunk y e)
     = Engine.lastResponseLength
         (Engine.dispatch Engine.record_chunk y0 e).
Proof.
  cbn zeta.
  destruct (dispatch_mirrors _ Engine.record_chunk y
              {| Engine.client := [];
                 Engine.promise := Engine.promise y;
                 Engine.sent := Engine.sent y;
                 Engine.lastResponseLength := Engine.lastResponseLength y |}
              (Engine.client y) e) as (Hc & Hp & Hs & Hl).
  { repeat split. }
  rewrite Hc, Hp, Hs, Hl, replay_record. repeat split.
Qed.

(** One event, on the collection as it is, against the recording
    engine. *)
Lemma deliver_follows a f y e (w : live) :
  in_flight w = Some f -> follows a f y ->
  exists f' more,
    in_flight (deliver e w) = Some f'
    /\ follows a f' (Engine.dispatch Engine.record_chunk y e)
    /\ Engine.client (Engine.dispatch Engine.record_chunk y e)
       = Engine.client y ++ more
    /\ screen (deliver e w)
       = settles (Engine.promise y)
           (Engine.promise (Engine.dispatch Engine.record_chunk y e))
           (setSessions (onChunk a (concat more) (sessions (screen w)))
              (screen w)).
Proof.
  intros F (Ft & Fp & Fs & Fo). unfold deliver. rewrite F. cbv zeta.
  destruct (dispatch_record_log y e) as (Lc & Lp & Ls & Ll). cbn zeta in *.
  destruct (dispatch_mirrors _ (onChunk a)
              {| Engine.client := sessions (screen w);
                 Engine.promise := flight_promise f;
                 Engine.sent := flight_sent f;
                 Engine.lastResponseLength := flight_offset f |}
              {| Engine.client := [];
                 Engine.promise := Engine.promise y;
                 Engine.sent := Engine.sent y;
                 Engine.lastResponseLength := Engine.lastResponseLength y |}
              (sessions (screen w)) e) as (Hc & Hp & Hs & Hl).
  { repeat split; assumption. }
  rewrite Ft. cbn [screen in_flight].
  eexists. eexists. split; [reflexivity|].
  split; [|split; [exact Lc|]].
  - unfold follows.
    cbn [flight_target flight_promise flight_sent flight_offset].
    refine (conj eq_refl (conj _ (conj _ _))).
    + exact (eq_trans Hp (eq_sym Lp)).
    + exact (eq_trans Hs (eq_sym Ls)).
    + exact (eq_trans Hl (eq_sym Ll)).
  - rewrite <- replay_onChunk, <- Hc, Lp, <- Hp, <- Fp. reflexivity.
Qed.

(** The guard stops a send while [isLoading] holds. *)
Lemma press_send_loading key now1 now2 (w : live) :
  isLoading (screen w) = true -> press_send key now1 now2 w = w.
Proof.
  intros L. unfold press_send, start_send, returns_early.
  rewrite L, orb_true_r. reflexivity.
Qed.

Lemma pending_dec (p : Engine.settled) :
  p = Engine.Pending \/ p <> Engine.Pending.
Proof. destruct p; [now left|right; discriminate|right; discriminate]. Qed.

(** One step keeps the flight with the recording engine, and [isLoading]
    with its promise. *)
Lemma step_follows key a f y (w : live) s :
  in_flight w = Some f -> follows a f y ->
  isLoading (screen w)
  = match Engine.promise y with Engine.Pending => true | _ => false end ->
  starts_no_send w s ->
  let y' := match s with
            | Event e => Engine.dispatch Engine.record_chunk y e
            | _ => y
            end in
  exists f',
    in_flight (apply_step key w s) = Some f'
    /\ follows a f' y'
    /\ isLoading (screen (apply_step key w s))
       = match Engine.promise y' with
         | Engine.Pending => true
         | _ => false
         end.
Proof.
  intros F Fo L Q. cbn zeta.
  destruct s as [now|i|now i|t|now1 now2|e]; cbn [apply_step].
  - exists f. split; [exact F|]. split; [exact Fo|exact L].
  - destruct (nth_error _ i); exists f;
      (split; [exact F|]; split; [exact Fo|exact L]).
  - destruct (nth_error _ i) as [item|]; exists f;
      (split; [exact F|]; split; [exact Fo|]); [|exact L].
    cbn [on_screen screen]. rewrite <- L. unfold deleteSession.
    destruct (is_active _ _); [destruct (filter _ _)|]; reflexivity.
  - exists f. split; [exact F|]. split; [exact Fo|exact L].
  - cbn in Q. rewrite (press_send_loading key now1 now2 w Q).
    exists f. split; [exact F|]. split; [exact Fo|exact L].
  - destruct (deliver_follows a f y e w F Fo) as (f' & more & F' & Fo' & _ & S).
    exists f'. split; [exact F'|]. split; [exact Fo'|].
    rewrite S. unfold settles.
    destruct (pending_dec (Engine.promise y)) as [P|P].
    + rewrite P in *.
      destruct (Engine.promise (Engine.dispatch Engine.record_chunk y e));
        cbn; auto.
    + rewrite (dispatch_settled _ Engine.record_chunk y e P).
      destruct (Engine.promise y); [contradiction| |]; cbn; auto.
Qed.

Lemma settles_sessions p q st : sessions (settles p q st) = sessions st.
Proof. destruct p, q; reflexivity. Qed.

Lemma events_of_fold (y : Engine.exchange (list jsstring)) s rest :
  fold_left (Engine.dispatch Engine.record_chunk) (events_of (s :: rest)) y
  = fold_left (Engine.dispatch Engine.record_chunk) (events_of rest)
      match s with
      | Event e => Engine.dispatch Engine.record_chunk y e
      | _ => y
      end.
Proof. destruct s; reflexivity. Qed.

(** Along steps that start no send, the flight stays with the recording
    engine run on the events among the steps. *)
Lemma steps_follow key a steps : forall (w : live) f y,
  in_flight w = Some f -> follows a f y ->
  isLoading (screen w)
  = match Engine.promise y with Engine.Pending => true | _ => false end ->
  all_along starts_no_send key steps w ->
  exists f',
    in_flight (apply_steps key steps w) = Some f'
    /\ follows a f'
         (fold_left (Engine.dispatch Engine.record_chunk)
            (events_of steps) y)
    /\ isLoading (screen (apply_steps key steps w))
       = match Engine.promise
                 (fold_left (Engine.dispatch Engine.record_chunk)
                    (events_of steps) y) with
         | Engine.Pending => true
         | _ => false
         end.
Proof.
  induction steps as [|s steps IH]; intros w f y F Fo L A.
  - exists f. split; [exact F|]. split; [exact Fo|exact L].
  - destruct A as (Q & A).
    destruct (step_follows key a f y w s F Fo L Q) as (f1 & F1 & Fo1 & L1).
    rewrite events_of_fold. cbn [apply_steps fold_left].
    apply (IH _ f1 _ F1 Fo1 L1 A).
Qed.

(** Without a request in flight and with [isLoading] off, steps that
    start no send leave both so. *)
Lemma steps_idle key steps : forall (w : live),
  in_flight w = None -> isLoading (screen w) = false ->
  all_along starts_no_send key steps w ->
  in_flight (apply_steps key steps w) = None
  /\ isLoading (screen (apply_steps key steps w)) = false.
Proof.
  induction steps as [|s steps IH]; intros w F L A; [now split|].
  destruct A as (Q & A). cbn [apply_steps fold_left]. apply IH; auto;
    destruct s as [now|i|now i|t|now1 now2|e]; cbn [apply_step];
    try (destruct (nth_error _ i)); cbn [on_screen in_flight screen]; auto;
    try (cbn in Q; congruence);
    try (unfold deliver; rewrite F; assumption).
  rewrite <- L. unfold deleteSession.
  destruct (is_active _ _); [destruct (filter _ _)|]; reflexivity.
Qed.

(** The state right after the send button, when the guard passes. *)
Lemma press_send_starts key now1 now2 st a s :
  returns_early st = false ->
  activeSessionId st = Some a -> activeSession st = Some s ->
  let st1 :=
    setIsLoading true
      (setInputText []
         (setSessions
            (append_pair a
               {| msg_id := Number_toString now1; text := inputText st;
                  isFromUser := true |}
               {| msg_id := Number_toString (now2 + 1); text := [];
                  isFromUser := false |} (sessions st)) st)) in
  let x :=
    Engine.streamGeminiResponse (onChunk a) key (selectedModel st)
      (build_history s (inputText st)) (sessions st1) in
  press_send key now1 now2 (idle st)
  = {| screen := settles Engine.Pending (Engine.promise x)
                   (setSessions (Engine.client x) st1);
       in_flight :=
         match Engine.sent x with
         | [] => None
         | _ :: _ =>
           Some {| flight_target := a;
                   flight_promise := Engine.promise x;
                   flight_sent := Engine.sent x;
                   flight_offset := Engine.lastResponseLength x |}
         end |}.
Proof.
  intros R A S. cbn zeta. unfold press_send, start_send, idle.
  cbn [screen]. rewrite R, A, S. reflexivity.
Qed.

(** A send during which nothing else happens is [handleSendMessage]. *)
Lemma uninterrupted_send key now1 now2 events st :
  screen (apply_steps key (map Event events)
            (press_send key now1 now2 (idle st)))
  = final (handleSendMessage key now1 now2 events st).
Proof.
  destruct (returns_early st) eqn:R.
  - rewrite (send_stopped key now1 now2 events st R). cbn [final].
    unfold press_send, start_send, idle. cbn [screen]. rewrite R.
    induction events as [|e events IH]; [reflexivity|exact IH].
  - destruct (returns_early_false st R) as (_ & _ & a & s & A & S & _).
    rewrite (press_send_starts key now1 now2 st a s R A S).
    unfold handleSendMessage, start_send. rewrite R, A, S.
    unfold call_engine, Engine.run.
    cbn [Controller.target context after_append final call_exchange].
    set (st1 := setIsLoading true _).
    destruct key as [[|c key]|];
      cbn [Engine.streamGeminiResponse Engine.sent Engine.promise
           Engine.client Engine.lastResponseLength settles].
    + induction events as [|e events IH]; [reflexivity|exact IH].
    + match goal with
      | |- screen (apply_steps _ _ {| screen := _; in_flight := Some ?f0 |})
           = setIsLoading _ (setSessions (Engine.client
                                            (fold_left _ _ ?x0)) _) =>
        assert (G : forall events x (w : live),
                  in_flight w
                  = Some {| flight_target := a;
                            flight_promise := Engine.promise x;
                            flight_sent := Engine.sent x;
                            flight_offset := Engine.lastResponseLength x |} ->
                  screen w
                  = setIsLoading
                      match Engine.promise x with
                      | Engine.Pending => true
                      | _ => false
                      end (setSessions (Engine.client x) st1) ->
                  screen (apply_steps (Some (c :: key)) (map Event events) w)
                  = setIsLoading
                      match Engine.promise
                              (fold_left (Engine.dispatch (onChunk a))
                                 events x) with
                      | Engine.Pending => true
                      | _ => false
                      end
                      (setSessions
                         (Engine.client
                            (fold_left (Engine.dispatch (onChunk a))
                               events x)) st1));
          [|apply (G events x0); reflexivity]
      end.
      clear. intros events.
      induction events as [|e events IH]; intros x w F Sc; [exact Sc|].
      cbn [map apply_steps fold_left apply_step].
      apply IH.
      * unfold deliver. rewrite F. cbn [in_flight flight_target
          flight_promise flight_sent flight_offset].
        rewrite Sc. cbn [sessions setIsLoading setSessions].
        destruct x; reflexivity.
      * unfold deliver. rewrite F. cbn [screen flight_target
          flight_promise flight_sent flight_offset].
        rewrite Sc. cbn [sessions setIsLoading setSessions].
        destruct x as [cl pr se off]. cbn [Engine.client Engine.promise
          Engine.sent Engine.lastResponseLength].
        destruct (pending_dec pr) as [P|P].
        -- subst pr.
           destruct (Engine.promise (Engine.dispatch (onChunk a) _ e));
             reflexivity.
        -- rewrite (dispatch_settled _ (onChunk a)
                      {| Engine.client := cl; Engine.promise := pr;
                         Engine.sent := se;
                         Engine.lastResponseLength := off |} e P).
           cbn [Engine.promise]. destruct pr; [contradiction| |]; reflexivity.
    + induction events as [|e events IH]; [reflexivity|exact IH].
Qed.

(** X11: the send button clears the input, and from then on, while the
    drawer is used, the input changes, the send button is pressed in vain
    and the events of the request arrive in any order with these,
    [isLoading] is back to [false] exactly when the promise of the engine
    has settled: when no key is configured, or when the transport has
    delivered an [error] or a [loadend] event.  While only [progress]
    events have come, [isLoading] stays [true]. *)
Theorem send_ends_loading_exactly_when (key : option jsstring)
    (now1 now2 : Z) (steps : list step) (st : State) :
  returns_early st = false ->
  all_along starts_no_send key steps (press_send key now1 now2 (idle st)) ->
  let w1 := press_send key now1 now2 (idle st) in
  inputText (screen w1) = []
  /\ (isLoading (screen (apply_steps key steps w1)) = false
      <-> falsy key = true
          \/ exists e, In e (events_of steps)
                       /\ forall t, e <> Engine.progress t).
Proof.
  intros R Q. cbn zeta.
  destruct (returns_early_false st R) as (_ & _ & a & s & A & S & _).
  rewrite (press_send_starts key now1 now2 st a s R A S) in *.
  cbv zeta in *.
  match type of Q with all_along _ _ _ ?w => set (w1 := w) in * end.
  destruct key as [[|c key]|].
  - assert (F : in_flight w1 = None) by reflexivity.
    assert (L0 : isLoading (screen w1) = false) by reflexivity.
    split; [reflexivity|].
    destruct (steps_idle _ steps w1 F L0 Q) as (_ & L).
    rewrite L. cbn [falsy]. split; auto.
  - set (y0 := Engine.streamGeminiResponse Engine.record_chunk
                 (Some (c :: key)) (selectedModel st)
                 (build_history s (inputText st)) []).
    assert (F : in_flight w1
                = Some {| flight_target := a;
                          flight_promise := Engine.promise y0;
                          flight_sent := Engine.sent y0;
                          flight_offset := Engine.lastResponseLength y0 |})
      by reflexivity.
    assert (L0 : isLoading (screen w1)
                 = match Engine.promise y0 with
                   | Engine.Pending => true
                   | _ => false
                   end) by reflexivity.
    split; [reflexivity|].
    destruct (steps_follow _ a steps w1 _ y0 F
                (conj eq_refl (conj eq_refl (conj eq_refl eq_refl)))
                L0 Q) as (f' & _ & _ & L).
    rewrite L. cbn [falsy]. split.
    + intros H. right.
      destruct (ends_or_not (events_of steps)) as [E|E]; [exact E|].
      rewrite (only_progress _ _ (events_of steps) _ E) in H. discriminate.
    + intros [H|H]; [discriminate|].
      pose proof (events_settle _ Engine.record_chunk (events_of steps)
                    y0 H) as P.
      destruct (Engine.promise
                  (fold_left (Engine.dispatch Engine.record_chunk)
                     (events_of steps) y0));
        [now destruct P|reflexivity|reflexivity].
  - assert (F : in_flight w1 = None) by reflexivity.
    assert (L0 : isLoading (screen w1) = false) by reflexivity.
    split; [reflexivity|].
    destruct (steps_idle _ steps w1 F L0 Q) as (_ & L).
    rewrite L. cbn [falsy]. split; auto.
Qed.

Lemma send_ends_loading_exactly_when_witness :
  returns_early fresh_chat = false
  /\ all_along starts_no_send a_key busy_steps
       (press_send a_key 100 100 (idle fresh_chat))
  /\ isLoading
       (screen (apply_steps a_key busy_steps
                  (press_send a_key 100 100 (idle fresh_chat))))
     = false
  /\ inputText
       (screen (apply_steps a_key busy_steps
                  (press_send a_key 100 100 (idle fresh_chat))))
     = lit "dictated".
Proof.
  assert (Q : all_along starts_no_send a_key busy_steps
                (press_send a_key 100 100 (idle fresh_chat))).
  { cbn. tauto. }
  split; [reflexivity|]. split; [exact Q|]. split; [|reflexivity].
  destruct (send_ends_loading_exactly_when a_key 100 100 busy_steps
              fresh_chat eq_refl Q) as (_ & H).
  apply H. right. exists (Engine.loadend 200).
  split; [cbn; tauto|discriminate].
Defined.

Lemma delete_other now sessionId st x :
  In x (sessions st) -> id x <> sessionId ->
  In x (sessions (deleteSession now sessionId st)).
Proof.
  intros H Hid.
  assert (F : In x (filter (fun s => negb (streq (id s) sessionId))
                      (sessions st)))
    by (apply remaining_spec; now split).
  unfold deleteSession. destruct (is_active st sessionId).
  - destruct (filter _ (sessions st)) as [|s0 rest]; [destruct F|exact F].
  - exact F.
Qed.

(** A step that is not an event and spares the id of [x] leaves [x] in
    the collection. *)
Lemma press_keeps key (w : live) s x :
  spares (id x) w s -> (forall e, s <> Event e) ->
  In x (sessions (screen w)) ->
  In x (sessions (screen (apply_step key w s))).
Proof.
  intros Q N H. destruct s as [now|i|now i|t|now1 now2|e]; cbn [apply_step].
  - now right.
  - destruct (nth_error _ i); exact H.
  - destruct (nth_error _ i) as [item|] eqn:E; [|exact H].
    cbn [on_screen screen]. apply delete_other; auto.
    intros Eq. now apply (Q item E).
  - exact H.
  - cbn in Q. now rewrite (press_send_loading key now1 now2 w Q).
  - now destruct (N e).
Qed.

(** The reply of [s] takes a chunk at its end. *)
Lemma fold_in s um pid t c l :
  In (replied s um pid t) l ->
  In (replied s um pid (t ++ c)) (onChunk (id s) c l).
Proof.
  intros H. unfold onChunk.
  apply in_map_iff. exists (replied s um pid t). split; [|exact H].
  unfold replied. cbn [id messages]. rewrite streq_refl.
  change (messages s ++ [um; ?p]) with (messages s ++ [um] ++ [p]).
  rewrite app_assoc, last_elem_snoc, slice_init_snoc, <- app_assoc.
  reflexivity.
Qed.

Lemma spares_starts_no_send a (w : live) s :
  spares a w s -> starts_no_send w s.
Proof. destruct s; cbn; auto. Qed.

(** Along steps that spare it, the reply holds the chunks recorded so
    far. *)
Lemma steps_keep_reply key s um pid steps : forall (w : live) f y,
  in_flight w = Some f -> follows (id s) f y ->
  isLoading (screen w)
  = match Engine.promise y with Engine.Pending => true | _ => false end ->
  all_along (spares (id s)) key steps w ->
  In (replied s um pid (concat (Engine.client y))) (sessions (screen w)) ->
  In (replied s um pid
        (concat (Engine.client
                   (fold_left (Engine.dispatch Engine.record_chunk)
                      (events_of steps) y))))
     (sessions (screen (apply_steps key steps w))).
Proof.
  induction steps as [|st steps IH]; intros w f y F Fo L A H; [exact H|].
  destruct A as (Q & A).
  destruct (step_follows key (id s) f y w st F Fo L
              (spares_starts_no_send _ _ _ Q)) as (f1 & F1 & Fo1 & L1).
  rewrite events_of_fold. cbn [apply_steps fold_left].
  apply (IH _ f1 _ F1 Fo1 L1 A).
  destruct st as [now|i|now i|t|now1 now2|e];
    try (apply press_keeps; [exact Q|discriminate|exact H]).
  destruct (deliver_follows (id s) f y e w F Fo)
    as (f' & more & _ & _ & C & S).
  cbn [apply_step]. rewrite S, settles_sessions. cbn [sessions setSessions].
  rewrite C, concat_app. now apply fold_in.
Qed.

Lemma steps_keep_idle key x steps : forall (w : live),
  in_flight w = None -> isLoading (screen w) = false ->
  all_along (spares (id x)) key steps w ->
  In x (sessions (screen w)) ->
  In x (sessions (screen (apply_steps key steps w))).
Proof.
  induction steps as [|st steps IH]; intros w F L A H; [exact H|].
  destruct A as (Q & A). cbn [apply_steps fold_left].
  destruct (steps_idle key [st] w F L
              (conj (spares_starts_no_send _ _ _ Q) I)) as (F1 & L1).
  apply IH; auto.
  destruct st as [now|i|now i|t|now1 now2|e];
    try (apply press_keeps; [exact Q|discriminate|exact H]).
  cbn [apply_step]. unfold deliver. now rewrite F.
Qed.

(** X6: a send goes through, with [s] the active session.  While its
    request is in flight the user may open a new chat, switch between
    chats, delete chats other than those of the id of [s], change the
    input and press send in vain, in any order with the events of the
    request.  Afterwards the collection holds [s] with two messages
    more: the user message, holding the input as typed, and the assistant
    message, whose text is the strings the engine passed to [onChunk],
    one after the other in the order of the calls (the error text of the
    engine included, when there is one).  When nothing but the events of
    the request happened, that session is the active one. *)
Theorem reply_is_the_chunks_in_order (key : option jsstring)
    (now1 now2 : Z) (steps : list step) (st : State) (s : ChatSession) :
  returns_early st = false ->
  activeSession st = Some s ->
  all_along (spares (id s)) key steps (press_send key now1 now2 (idle st)) ->
  let chunks :=
    Engine.client
      (Engine.run Engine.record_chunk key (selectedModel st)
         (build_history s (inputText st)) (events_of steps) []) in
  let after :=
    {| id := id s;
       messages :=
         messages s
         ++ [ {| msg_id := Number_toString now1;
                 text := inputText st;
                 isFromUser := true |};
              {| msg_id := Number_toString (now2 + 1);
                 text := concat chunks;
                 isFromUser := false |} ] |} in
  let w := apply_steps key steps (press_send key now1 now2 (idle st)) in
  In after (sessions (screen w))
  /\ (forall events, steps = map Event events ->
        activeSession (screen w) = Some after).
Proof.
  intros R S Q. cbn zeta.
  destruct (returns_early_false st R) as (_ & _ & a & s' & A & S' & Hid).
  assert (s' = s) by congruence. subst s'.
  assert (Hin : In s (sessions st)).
  { unfold activeSession in S. now apply find_some in S. }
  split.
  - rewrite (press_send_starts key now1 now2 st a s R A S) in *.
    cbv zeta in *. rewrite <- Hid in *.
    match type of Q with all_along _ _ _ ?w0 => set (w1 := w0) in * end.
    set (um := {| msg_id := Number_toString now1; text := inputText st;
                  isFromUser := true |}) in *.
    assert (H0 : In (replied s um (Number_toString (now2 + 1)) [])
                   (append_pair (id s) um
                      {| msg_id := Number_toString (now2 + 1); text := [];
                         isFromUser := false |} (sessions st))).
    { unfold append_pair. apply in_map_iff. exists s. split; [|exact Hin].
      now rewrite streq_refl. }
    destruct key as [[|c key]|].
    + assert (F : in_flight w1 = None) by reflexivity.
      assert (L0 : isLoading (screen w1) = false) by reflexivity.
      apply (steps_keep_idle _
               (replied s um (Number_toString (now2 + 1))
                  (concat [Engine.missing_key_message])) steps w1 F L0 Q).
      cbn [concat]. rewrite app_nil_r.
      apply (fold_in s um _ [] Engine.missing_key_message _ H0).
    + set (y0 := Engine.streamGeminiResponse Engine.record_chunk
                   (Some (c :: key)) (selectedModel st)
                   (build_history s (inputText st)) []).
      assert (F : in_flight w1
                  = Some {| flight_target := id s;
                            flight_promise := Engine.promise y0;
                            flight_sent := Engine.sent y0;
                            flight_offset := Engine.lastResponseLength y0 |})
        by reflexivity.
      assert (L0 : isLoading (screen w1)
                   = match Engine.promise y0 with
                     | Engine.Pending => true
                     | _ => false
                     end) by reflexivity.
      apply (steps_keep_reply _ s um (Number_toString (now2 + 1)) steps
               w1 _ y0 F
               (conj eq_refl (conj eq_refl (conj eq_refl eq_refl))) L0 Q).
      exact H0.
    + assert (F : in_flight w1 = None) by reflexivity.
      assert (L0 : isLoading (screen w1) = false) by reflexivity.
      apply (steps_keep_idle _
               (replied s um (Number_toString (now2 + 1))
                  (concat [Engine.missing_key_message])) steps w1 F L0 Q).
      cbn [concat]. rewrite app_nil_r.
      apply (fold_in s um _ [] Engine.missing_key_message _ H0).
  - intros events E. subst steps. rewrite uninterrupted_send.
    assert (Ev : events_of (map Event events) = events)
      by (clear; induction events as [|e l IH]; cbn; congruence).
    rewrite Ev.
    destruct (send_final key now1 now2 events st a s R A S)
      as (Hs & Ha & _).
    unfold activeSession at 1, is_active. rewrite Hs, Ha.
    unfold activeSession, is_active in S. rewrite A in S.
    rewrite (find_target a _ _ _ _ s S Hid). reflexivity.
Qed.

Lemma reply_is_the_chunks_in_order_witness :
  returns_early fresh_chat = false
  /\ activeSession fresh_chat = Some {| id := lit "3"; messages := [] |}
  /\ all_along (spares (lit "3")) a_key busy_steps
       (press_send a_key 100 100 (idle fresh_chat))
  /\ In {| id := lit "3";
           messages := [ msg 100 "What is Rocq?" true;
                         msg 101 "Hello, world" false ] |}
        (sessions
           (screen (apply_steps a_key busy_steps
                      (press_send a_key 100 100 (idle fresh_chat)))))
  /\ activeSessionId
       (screen (apply_steps a_key busy_steps
                  (press_send a_key 100 100 (idle fresh_chat))))
     = Some (lit "200").
Proof.
  assert (Q : all_along (spares (lit "3")) a_key busy_steps
                (press_send a_key 100 100 (idle fresh_chat))).
  { cbn. repeat split.
    intros item E. injection E as <-. discriminate. }
  split; [reflexivity|]. split; [reflexivity|]. split; [exact Q|].
  split; [|reflexivity].
  exact (proj1 (reply_is_the_chunks_in_order a_key 100 100 busy_steps
                  fresh_chat {| id := lit "3"; messages := [] |}
                  eq_refl eq_refl Q)).
Defined.

End Interleaving.
